(** * oplog-abuse: the oplog tailing pipeline and its seven-number summaries

    A shallow embedding of the two Go programs of the repository:
    - the summary pipeline ([latestOplog], [oplogCh], [oidCh], [rawToSummary],
      [stats], [main]);
    - the plain tailer of [tail/main.go] ([Tail.main]).

    Conventions.
    - [float64] is modelled by the canonical rationals [Qc]: arithmetic is
      exact, NaN and rounding are outside the model.
    - Go slices are headers pointing into a heap of backing arrays, so that
      aliasing between a [Raw] and its caller is visible.
    - A channel with one producer and one consumer is the list of the values
      sent on it before it is closed.
    - A panic is an explicit outcome. *)

From Stdlib Require Import QArith Qcanon Qround Ascii.
From stdpp Require Import gmap strings list fin_maps sorting numbers.

Set Warnings "-register-all".

Open Scope Z_scope.

(** ** Numbers *)

Definition float64 : Type := Qc.

(** [float64(n)] for an integer [n]. *)
Definition float64_of_Z (n : Z) : float64 := Qc_of_Z n.

(** A decimal literal of the source. *)
Definition lit (q : Q) : float64 := Q2Qc q.

(** ** Outcomes of a call: a normal return or a panic *)

Inductive error : Type :=
| ErrNotFound
| ErrOther (msg : string).

Inductive PanicValue : Type :=
| PanicError (e : error)
| PanicIndexOutOfRange
| PanicQuantile
| PanicObjectIdHex (s : string).

Inductive Outcome (A : Type) : Type :=
| Returns (a : A)
| Panics (p : PanicValue).
Arguments Returns {A} a.
Arguments Panics {A} p.

(** ** Structs of the program *)

Module Datapoint.
Record t : Type := Build { At : Z; Value : float64 }.
End Datapoint.

(** ** The heap of backing arrays and slice headers *)

Definition loc : Type := positive.

Inductive Array : Type :=
| DatapointArray (a : list Datapoint.t)
| Float64Array (a : list float64).

Abbreviation Heap := (gmap loc Array).

(** A slice header: backing array, offset of the first element, length.
    The capacity is never consulted by the program (there is no append). *)
Record Slice : Type := { base : loc; off : nat; len : nat }.

(** [s[i]] for a [[]Datapoint]; [None] is the index-out-of-range panic. *)
Definition loadDatapoint (h : Heap) (s : Slice) (i : nat) : option Datapoint.t :=
  if decide (i < len s)%nat then
    match h !! base s with
    | Some (DatapointArray a) => a !! (off s + i)%nat
    | _ => None
    end
  else None.

(** [s[i] = v] for a [[]float64]. *)
Definition storeFloat64 (h : Heap) (s : Slice) (i : nat) (v : float64) : option Heap :=
  if decide (i < len s)%nat then
    match h !! base s with
    | Some (Float64Array a) =>
        if decide (off s + i < length a)%nat
        then Some (<[base s := Float64Array (<[(off s + i)%nat := v]> a)]> h)
        else None
    | _ => None
    end
  else None.

(** The elements a slice currently shows. *)
Definition viewDatapoints (h : Heap) (s : Slice) : option (list Datapoint.t) :=
  if decide (len s = 0)%nat then Some []
  else match h !! base s with
       | Some (DatapointArray a) =>
           if decide (off s + len s ≤ length a)%nat
           then Some (take (len s) (drop (off s) a)) else None
       | _ => None
       end.

Definition viewFloat64s (h : Heap) (s : Slice) : option (list float64) :=
  match h !! base s with
  | Some (Float64Array a) =>
      if decide (off s + len s ≤ length a)%nat
      then Some (take (len s) (drop (off s) a)) else None
  | _ => None
  end.

(** [make([]float64, n, n)]: a fresh zeroed array and a slice over all of it. *)
Definition makeFloat64s (n : nat) (h : Heap) : Slice * Heap :=
  let l := fresh (dom h) in
  ({| base := l; off := 0; len := n |},
   <[l := Float64Array (replicate n (float64_of_Z 0))]> h).

(** [sort.Float64s(s)]: sorts, in place, the window of the backing array
    that the slice shows, in increasing order. *)
Definition sortFloat64s (h : Heap) (s : Slice) : option Heap :=
  match h !! base s with
  | Some (Float64Array a) =>
      if decide (off s + len s ≤ length a)%nat
      then Some (<[base s := Float64Array
                     (take (off s) a
                      ++ merge_sort Qcle (take (len s) (drop (off s) a))
                      ++ drop (off s + len s) a)]> h)
      else None
  | _ => None
  end.

Module Raw.
Record t : Type := Build { Key : string; At : Z; Values : Slice }.
End Raw.

(** http://en.wikipedia.org/wiki/Seven-number_summary *)
Module Summary.
Record t : Type := Build {
  Key : string;
  At : Z;
  Min : float64;
  Max : float64;
  P2 : float64;
  P9 : float64;
  P25 : float64;
  P50 : float64;
  P75 : float64;
  P91 : float64;
  P98 : float64
}.
End Summary.

(** ** The recomputation engine *)

Section Engine.

(** [stat.Quantile(p, stat.Empirical, x, nil)] of the statistics library the
    program links against; [None] when the call panics. *)
Variable Quantile : float64 → list float64 → option float64.

(** The loop [for i, value := range raw.Values { values[i] = value.Value }],
    from iteration [i], with [n] iterations left. *)
Fixpoint copyValues (src dst : Slice) (i n : nat) (h : Heap) : option Heap :=
  match n with
  | O => Some h
  | S n' =>
      value ← loadDatapoint h src i;
      h' ← storeFloat64 h dst i (Datapoint.Value value);
      copyValues src dst (S i) n' h'
  end.

(** The nine quantile calls, in the order of the source; the first one that
    panics aborts the rest. *)
Definition summaryOf (key : string) (at_ : Z) (values : list float64) : option Summary.t :=
  min ← Quantile (lit 0) values;
  max ← Quantile (lit 1) values;
  p2 ← Quantile (lit 0.02) values;
  p9 ← Quantile (lit 0.09) values;
  p25 ← Quantile (lit 0.25) values;
  p50 ← Quantile (lit 0.50) values;
  p75 ← Quantile (lit 0.75) values;
  p91 ← Quantile (lit 0.91) values;
  p98 ← Quantile (lit 0.98) values;
  Some {| Summary.Key := key; Summary.At := at_;
          Summary.Min := min; Summary.Max := max;
          Summary.P2 := p2; Summary.P9 := p9; Summary.P25 := p25;
          Summary.P50 := p50; Summary.P75 := p75; Summary.P91 := p91;
          Summary.P98 := p98 |}.

Definition rawToSummary (raw : Raw.t) (h : Heap) : Heap * Outcome Summary.t :=
  let '(values, h1) := makeFloat64s (len (Raw.Values raw)) h in
  match copyValues (Raw.Values raw) values 0 (len (Raw.Values raw)) h1 with
  | None => (h1, Panics PanicIndexOutOfRange)
  | Some h2 =>
      match sortFloat64s h2 values with
      | None => (h2, Panics PanicIndexOutOfRange)
      | Some h3 =>
          match viewFloat64s h3 values with
          | None => (h3, Panics PanicIndexOutOfRange)
          | Some sorted =>
              match summaryOf (Raw.Key raw) (Raw.At raw) sorted with
              | Some summary => (h3, Returns summary)
              | None => (h3, Panics PanicQuantile)
              end
          end
      end
  end.

End Engine.

(** Go's checked indexing [x[i]]: [None] is the index-out-of-range panic. *)
Definition index (x : list float64) (i : Z) : option float64 :=
  if decide (0 ≤ i) then x !! Z.to_nat i else None.

(** Modelled from the spec: the body of the library function [stat.Quantile]
    (kind [Empirical]) is not among the repository's sources. The spec gives
    it as: "the p-th percentile of a sorted sequence of n values is located at
    linear-interpolated rank p·(n−1), interpolating between the two bracketing
    sorted values". This is the quantile the spec describes; the [Empirical]
    kind that the program asks for is [QuantileStep]. *)
Definition QuantileInterpolated (p : float64) (x : list float64) : option float64 :=
  let rank := (p * float64_of_Z (Z.of_nat (length x) - 1))%Qc in
  let lo := Qfloor rank in
  let hi := Qceiling rank in
  a ← index x lo;
  b ← index x hi;
  Some (a + (rank - float64_of_Z lo) * (b - a))%Qc.

(** ** BSON values and oplog documents *)

Inductive Value : Type :=
| VObjectId (id : string)
| VString (s : string)
| VInt64 (n : Z)
| VFloat64 (x : float64)
| VTimestamp (ts : Z)
| VDoc (d : list (string * Value))
| VArray (l : list Value).

(** [bson.M], a Go map from field names to values. *)
Abbreviation M := (gmap string Value).

(** Oplog an individual document from the oplog.rs collection *)
Module Oplog.
Record t : Type := Build {
  Timestamp : Z;
  HistoryID : Z;
  MongoVersion : Z;
  Operation : string;
  Namespace : string;
  Object : M;
  QueryObject : M
}.
End Oplog.

(** [encoding/hex]: the lower-case table of [EncodeToString] and the
    digits accepted by [DecodeString]. *)
Definition hextable : list ascii := String.list_ascii_of_string "0123456789abcdef".

Definition hexChar (n : N) : ascii := nth (N.to_nat n) hextable "0"%char.

Fixpoint EncodeToString (src : string) : string :=
  match src with
  | EmptyString => EmptyString
  | String v rest =>
      String (hexChar (N.shiftr (N_of_ascii v) 4))
        (String (hexChar (N.land (N_of_ascii v) 15)) (EncodeToString rest))
  end.

Definition fromHexChar (c : ascii) : option N :=
  let n := N_of_ascii c in
  if decide (48 ≤ n ≤ 57)%N then Some (n - 48)%N
  else if decide (97 ≤ n ≤ 102)%N then Some (n - 97 + 10)%N
  else if decide (65 ≤ n ≤ 70)%N then Some (n - 65 + 10)%N
  else None.

Fixpoint DecodeString (s : string) : option string :=
  match s with
  | EmptyString => Some EmptyString
  | String _ EmptyString => None
  | String a (String b rest) =>
      hi ← fromHexChar a;
      lo ← fromHexChar b;
      d ← DecodeString rest;
      Some (String (ascii_of_N (N.lor (N.shiftl hi 4) lo)) d)
  end.

(** [bson.ObjectId.Hex] and [bson.ObjectIdHex]. *)
Definition Hex (id : string) : string := EncodeToString id.

Definition ObjectIdHex (s : string) : Outcome string :=
  match DecodeString s with
  | Some d => if decide (String.length d = 12%nat) then Returns d
              else Panics (PanicObjectIdHex s)
  | None => Panics (PanicObjectIdHex s)
  end.

(** ** The identifier stage *)

(** One iteration of the loop of [oidCh]: what is sent on [out] for [o]. *)
Definition oidSend (o : Oplog.t) : list string :=
  (if decide (Oplog.Operation o = "i") then
     match Oplog.Object o !! "_id" with
     | Some (VObjectId boid) => [Hex boid]
     | _ => []
     end
   else [])
  ++
  (if decide (Oplog.Operation o = "u") then
     match Oplog.QueryObject o !! "_id" with
     | Some (VObjectId boid) => [Hex boid]
     | _ => []
     end
   else []).

(** assumes the oplog will be modifying a default "_id" field that is an
    ObjectID type. Returns the string representation of oplog ObjectIDs being
    either inserted or updated. *)
Definition oidCh (in_ : list Oplog.t) : list string := in_ ≫= oidSend.

(** ** Queries

    The part of the server's query language that the two programs use: a
    query is a [bson.M] of conditions on fields; a condition is a value to
    equal, or a document of the operators [$gt], [$gte] and [$in]. Order
    operators compare values of one numeric kind only. *)

Fixpoint valueEqb (a b : Value) : bool :=
  match a, b with
  | VObjectId x, VObjectId y => bool_decide (x = y)
  | VString x, VString y => bool_decide (x = y)
  | VInt64 x, VInt64 y => bool_decide (x = y)
  | VFloat64 x, VFloat64 y => bool_decide (x = y)
  | VTimestamp x, VTimestamp y => bool_decide (x = y)
  | VDoc d, VDoc e =>
      (fix docEqb (d e : list (string * Value)) : bool :=
         match d, e with
         | [], [] => true
         | (k, v) :: d', (k', v') :: e' =>
             bool_decide (k = k') && valueEqb v v' && docEqb d' e'
         | _, _ => false
         end) d e
  | VArray l, VArray m =>
      (fix arrayEqb (l m : list Value) : bool :=
         match l, m with
         | [], [] => true
         | v :: l', v' :: m' => valueEqb v v' && arrayEqb l' m'
         | _, _ => false
         end) l m
  | _, _ => false
  end.

Definition compareValues (a b : Value) : option comparison :=
  match a, b with
  | VTimestamp x, VTimestamp y => Some (x ?= y)
  | VInt64 x, VInt64 y => Some (x ?= y)
  | VFloat64 x, VFloat64 y => Some (x ?= y)%Qc
  | _, _ => None
  end.

Definition matchOperator (op : string) (arg : Value) (field : option Value) : bool :=
  match field with
  | None => false
  | Some v =>
      if decide (op = "$gt") then
        bool_decide (compareValues v arg = Some Gt)
      else if decide (op = "$gte") then
        bool_decide (compareValues v arg = Some Gt ∨ compareValues v arg = Some Eq)
      else if decide (op = "$in") then
        match arg with
        | VArray l => existsb (valueEqb v) l
        | _ => false
        end
      else false
  end.

Definition isOperator (name : string) : bool :=
  match name with
  | String "$" _ => true
  | _ => false
  end.

Definition matchField (cond : Value) (field : option Value) : bool :=
  match cond with
  | VDoc ((name, arg) :: ops) =>
      if forallb (λ c, isOperator c.1) ((name, arg) :: ops)
      then forallb (λ c, matchOperator c.1 c.2 field) ((name, arg) :: ops)
      else match field with Some v => valueEqb v cond | None => false end
  | _ => match field with Some v => valueEqb v cond | None => false end
  end.

(** A document, seen through its named fields, satisfies a query when every
    condition of the query holds of the field it names. *)
Definition matches (fields : string → option Value) (query : M) : bool :=
  bool_decide (map_Forall (λ name cond, matchField cond (fields name) = true) query).

(** The fields of an oplog document, by the [bson] tags of [Oplog]. *)
Definition oplogField (o : Oplog.t) (name : string) : option Value :=
  if decide (name = "ts") then Some (VTimestamp (Oplog.Timestamp o))
  else if decide (name = "h") then Some (VInt64 (Oplog.HistoryID o))
  else if decide (name = "v") then Some (VInt64 (Oplog.MongoVersion o))
  else if decide (name = "op") then Some (VString (Oplog.Operation o))
  else if decide (name = "ns") then Some (VString (Oplog.Namespace o))
  else if decide (name = "o") then Some (VDoc (map_to_list (Oplog.Object o)))
  else if decide (name = "o2") then Some (VDoc (map_to_list (Oplog.QueryObject o)))
  else None.

(** The fields of a stored summary, by the [bson] tags of [Summary]. *)
Definition summaryField (s : Summary.t) (name : string) : option Value :=
  if decide (name = "key") then Some (VString (Summary.Key s))
  else if decide (name = "at") then Some (VInt64 (Summary.At s))
  else if decide (name = "min") then Some (VFloat64 (Summary.Min s))
  else if decide (name = "max") then Some (VFloat64 (Summary.Max s))
  else if decide (name = "p2") then Some (VFloat64 (Summary.P2 s))
  else if decide (name = "p9") then Some (VFloat64 (Summary.P9 s))
  else if decide (name = "p25") then Some (VFloat64 (Summary.P25 s))
  else if decide (name = "p50") then Some (VFloat64 (Summary.P50 s))
  else if decide (name = "p75") then Some (VFloat64 (Summary.P75 s))
  else if decide (name = "p91") then Some (VFloat64 (Summary.P91 s))
  else if decide (name = "p98") then Some (VFloat64 (Summary.P98 s))
  else None.

(** ** The database and the process

    [World] is what a run of either program can read or change: the Go heap,
    the collections of the server, the answers of the server, and a journal
    of what the process asked of the server and printed. *)

(** A stored document of [metrics.raw]. *)
Module RawDoc.
Record t : Type := Build { key : string; at_ : Z; values : list Datapoint.t }.
End RawDoc.

Inductive Event : Type :=
| FindOne (db coll : string) (query : M)
| Upsert (db coll : string) (selector : M) (doc : Summary.t)
| PrintOid (oid : string)
| PrintRaw (key : string) (at_ : Z) (values : list Datapoint.t)
| PrintOplog (o : Oplog.t).

Record World : Type := {
  (** memory of the process *)
  heap : Heap;
  (** [local.oplog.rs] in natural order: the documents present when the
      process starts, and those appended afterwards up to the moment the
      tailing cursor stops *)
  oplog_rs : list Oplog.t;
  oplog_appended : list Oplog.t;
  (** what [iter.Err()] and [iter.Close()] answer once the cursor has stopped *)
  iter_Err : option error;
  iter_Close : option error;
  (** [metrics.raw], by [_id] *)
  metrics_raw : gmap string RawDoc.t;
  (** [metrics.summary] in natural order *)
  metrics_summary : list Summary.t;
  (** transport failures of the successive calls of the main goroutine;
      [None], or no entry left, lets the call through *)
  faults : list (option error);
  journal : list Event
}.

Definition set_heap (h : Heap) (w : World) : World :=
  {| heap := h; oplog_rs := oplog_rs w; oplog_appended := oplog_appended w;
     iter_Err := iter_Err w; iter_Close := iter_Close w;
     metrics_raw := metrics_raw w; metrics_summary := metrics_summary w;
     faults := faults w; journal := journal w |}.

Definition set_metrics_summary (c : list Summary.t) (w : World) : World :=
  {| heap := heap w; oplog_rs := oplog_rs w; oplog_appended := oplog_appended w;
     iter_Err := iter_Err w; iter_Close := iter_Close w;
     metrics_raw := metrics_raw w; metrics_summary := c;
     faults := faults w; journal := journal w |}.

Definition set_faults (f : list (option error)) (w : World) : World :=
  {| heap := heap w; oplog_rs := oplog_rs w; oplog_appended := oplog_appended w;
     iter_Err := iter_Err w; iter_Close := iter_Close w;
     metrics_raw := metrics_raw w; metrics_summary := metrics_summary w;
     faults := f; journal := journal w |}.

Definition record (e : Event) (w : World) : World :=
  {| heap := heap w; oplog_rs := oplog_rs w; oplog_appended := oplog_appended w;
     iter_Err := iter_Err w; iter_Close := iter_Close w;
     metrics_raw := metrics_raw w; metrics_summary := metrics_summary w;
     faults := faults w; journal := journal w ++ [e] |}.

(** The server's answer to the next call of the main goroutine. *)
Definition nextFault (w : World) : option error * World :=
  match faults w with
  | [] => (None, w)
  | f :: fs => (f, set_faults fs w)
  end.

(** [Find(nil).Sort("-$natural").One(&oplog)] on [local.oplog.rs]. *)
Definition latestOplog (w : World) : World * (Oplog.t + error) :=
  let w0 := record (FindOne "local" "oplog.rs" ∅) w in
  match nextFault w0 with
  | (Some err, w1) => (w1, inr err)
  | (None, w1) =>
      match list.last (oplog_rs w1) with
      | Some oplog => (w1, inl oplog)
      | None => (w1, inr ErrNotFound)
      end
  end.

(** The tailing cursor
    [Find(query).Sort("$natural").LogReplay().Tail(-1)] on [local.oplog.rs],
    drained by [for iter.Next(&oplog) { out <- oplog }]: the documents sent
    on [out] before it is closed, and the error left on [errc]. *)
Definition oplogCh (w : World) (query : M) : list Oplog.t * option error :=
  (filter (λ o, matches (oplogField o) query = true) (oplog_rs w ++ oplog_appended w),
   match iter_Err w with
   | Some err => Some err
   | None => iter_Close w
   end).

(** Decoding a stored document into a [Raw]: the values go to a new array. *)
Definition decodeRaw (d : RawDoc.t) (h : Heap) : Raw.t * Heap :=
  let l := fresh (dom h) in
  ({| Raw.Key := RawDoc.key d; Raw.At := RawDoc.at_ d;
      Raw.Values := {| base := l; off := 0; len := length (RawDoc.values d) |} |},
   <[l := DatapointArray (RawDoc.values d)]> h).

(** [Find(bson.M{"_id": id}).One(&raw)] on [metrics.raw]. *)
Definition findOneRaw (id : string) (w : World) : World * (Raw.t + error) :=
  let w0 := record (FindOne "metrics" "raw" {[ "_id" := VObjectId id ]}) w in
  match nextFault w0 with
  | (Some err, w1) => (w1, inr err)
  | (None, w1) =>
      match metrics_raw w1 !! id with
      | None => (w1, inr ErrNotFound)
      | Some d =>
          let '(raw, h) := decodeRaw d (heap w1) in
          (set_heap h w1, inl raw)
      end
  end.

(** Modelled from the spec: the server's side of [Upsert] on
    [metrics.summary] is not among the repository's sources. The spec gives
    it as: "if a summary with that key exists, replace it entirely;
    otherwise insert". *)
Fixpoint replaceFirst (selector : M) (doc : Summary.t) (c : list Summary.t)
  : option (list Summary.t) :=
  match c with
  | [] => None
  | d :: c' =>
      if matches (summaryField d) selector then Some (doc :: c')
      else (d ::.) <$> replaceFirst selector doc c'
  end.

Definition upsertDoc (selector : M) (doc : Summary.t) (c : list Summary.t)
  : list Summary.t :=
  match replaceFirst selector doc c with
  | Some c' => c'
  | None => c ++ [doc]
  end.

(** [Upsert(selector, summary)] on [metrics.summary], as the process sees it. *)
Definition upsertSummary (selector : M) (doc : Summary.t) (w : World)
  : World * option error :=
  let w0 := record (Upsert "metrics" "summary" selector doc) w in
  match nextFault w0 with
  | (Some err, w1) => (w1, Some err)
  | (None, w1) =>
      (set_metrics_summary (upsertDoc selector doc (metrics_summary w1)) w1, None)
  end.

(** [fmt.Printf("%+v\n", raw)]: the struct with the values its slice shows. *)
Definition printRaw (raw : Raw.t) (w : World) : World :=
  record (PrintRaw (Raw.Key raw) (Raw.At raw)
            (default [] (viewDatapoints (heap w) (Raw.Values raw)))) w.

Section Pipeline.

Variable Quantile : float64 → list float64 → option float64.

Definition stats (oid : string) (w : World) : World * Outcome (option error) :=
  (* get raw object *)
  match ObjectIdHex oid with
  | Panics p => (w, Panics p)
  | Returns id =>
      match findOneRaw id w with
      | (w1, inr err) => (w1, Returns (Some err))
      | (w1, inl raw) =>
          match rawToSummary Quantile raw (heap w1) with
          | (h, Panics p) => (set_heap h w1, Panics p)
          | (h, Returns summary) =>
              let selector : M :=
                {[ "key" := VString (Summary.Key summary);
                   "at" := VInt64 (Summary.At summary) ]} in
              let '(w2, err) := upsertSummary selector summary (set_heap h w1) in
              (printRaw raw w2, Returns err)
          end
      end
  end.

(** The loop [for oid := range oidch] of [main]. *)
Fixpoint consume (oidch : list string) (w : World) : World * Outcome unit :=
  match oidch with
  | [] => (w, Returns ())
  | oid :: rest =>
      match stats oid (record (PrintOid oid) w) with
      | (w1, Returns None) => consume rest w1
      | (w1, Returns (Some err)) => (w1, Panics (PanicError err))
      | (w1, Panics p) => (w1, Panics p)
      end
  end.

(** The tailing query of [main]. *)
Definition tailQuery (lo : Oplog.t) : M :=
  {[ "ts" := VDoc [("$gt", VTimestamp (Oplog.Timestamp lo))];
     "ns" := VString "metrics.raw";
     "op" := VDoc [("$in", VArray [VString "i"; VString "u"])] ]}.

(** [main], from the answer of [mgo.Dial]. *)
Definition main (dial : option error) (w : World) : World * Outcome unit :=
  match dial with
  | Some err => (w, Panics (PanicError err))
  | None =>
      (* need last oplog timestamp to make tailing query *)
      match latestOplog w with
      | (w1, inr err) => (w1, Panics (PanicError err))
      | (w1, inl lo) =>
          let '(och, errCh) := oplogCh w1 (tailQuery lo) in
          let oidch := oidCh och in
          match consume oidch w1 with
          | (w2, Panics p) => (w2, Panics p)
          | (w2, Returns _) =>
              match errCh with
              | Some err => (w2, Panics (PanicError err))
              | None => (w2, Returns ())
              end
          end
      end
  end.

End Pipeline.

(** ** The plain tailer, [tail/main.go] *)

Module Tail.

(** The tailing query of the tailer. *)
Definition tailQuery (lo : Oplog.t) : M :=
  {[ "ts" := VDoc [("$gte", VTimestamp (Oplog.Timestamp lo))] ]}.

(** The documents the cursor delivers to [for iter.Next(&oplog)]. *)
Definition delivered (w : World) (query : M) : list Oplog.t :=
  filter (λ o, matches (oplogField o) query = true) (oplog_rs w ++ oplog_appended w).

Definition main (dial : option error) (w : World) : World * Outcome unit :=
  match dial with
  | Some err => (w, Panics (PanicError err))
  | None =>
      match latestOplog w with
      | (w1, inr err) => (w1, Panics (PanicError err))
      | (w1, inl lo) =>
          let w2 := foldl (λ w' oplog, record (PrintOplog oplog) w') w1
                      (delivered w1 (tailQuery lo)) in
          match iter_Err w2 with
          | Some err => (w2, Panics (PanicError err))
          | None =>
              match iter_Close w2 with
              | Some err => (w2, Panics (PanicError err))
              | None => (w2, Returns ())
              end
          end
      end
  end.

End Tail.

(** ** Notions used in the statements, and sample data *)

(** The identifiers announced by [fmt.Printf("got oid: %s\n", oid)]. *)
Definition printedOids (j : list Event) : list string :=
  j ≫= λ e, match e with PrintOid oid => [oid] | _ => [] end.

(** Datapoints carrying the given integer values. *)
Definition datapoints (vs : list Z) : list Datapoint.t :=
  (λ v, {| Datapoint.At := 0; Datapoint.Value := float64_of_Z v |}) <$> vs.

Definition one_to_ten : list Z := [1; 2; 3; 4; 5; 6; 7; 8; 9; 10].

Definition sample_heap : Heap := {[ 1%positive := DatapointArray (datapoints one_to_ten) ]}.

Definition sample_raw : Raw.t :=
  {| Raw.Key := "cpu"; Raw.At := 60;
     Raw.Values := {| base := 1%positive; off := 0; len := 10 |} |}.

Definition empty_raw : Raw.t :=
  {| Raw.Key := "cpu"; Raw.At := 60;
     Raw.Values := {| base := 1%positive; off := 0; len := 0 |} |}.

(** The same oplog document with another payload. *)
Definition withObject (payload : M) (o : Oplog.t) : Oplog.t :=
  {| Oplog.Timestamp := Oplog.Timestamp o; Oplog.HistoryID := Oplog.HistoryID o;
     Oplog.MongoVersion := Oplog.MongoVersion o; Oplog.Operation := Oplog.Operation o;
     Oplog.Namespace := Oplog.Namespace o; Oplog.Object := payload;
     Oplog.QueryObject := Oplog.QueryObject o |}.

Definition sample_id : string := "abcdefghijkl".
Definition missing_id : string := "mnopqrstuvwx".

(** The most recent oplog document when the process starts: a no-op. *)
Definition latest_entry : Oplog.t :=
  {| Oplog.Timestamp := 100; Oplog.HistoryID := 0; Oplog.MongoVersion := 2;
     Oplog.Operation := "n"; Oplog.Namespace := "";
     Oplog.Object := ∅; Oplog.QueryObject := ∅ |}.

Definition insert_entry : Oplog.t :=
  {| Oplog.Timestamp := 101; Oplog.HistoryID := 1; Oplog.MongoVersion := 2;
     Oplog.Operation := "i"; Oplog.Namespace := "metrics.raw";
     Oplog.Object := {[ "_id" := VObjectId sample_id; "key" := VString "cpu" ]};
     Oplog.QueryObject := ∅ |}.

(** An insert whose [_id] is the string "abc". *)
Definition insert_abc : Oplog.t :=
  {| Oplog.Timestamp := 102; Oplog.HistoryID := 2; Oplog.MongoVersion := 2;
     Oplog.Operation := "i"; Oplog.Namespace := "metrics.raw";
     Oplog.Object := {[ "_id" := VString "abc"; "value" := VInt64 5 ]};
     Oplog.QueryObject := ∅ |}.

(** An update whose selector holds the string "abc". *)
Definition update_abc : Oplog.t :=
  {| Oplog.Timestamp := 103; Oplog.HistoryID := 3; Oplog.MongoVersion := 2;
     Oplog.Operation := "u"; Oplog.Namespace := "metrics.raw";
     Oplog.Object := {[ "$set" := VDoc [("value", VInt64 7)] ]};
     Oplog.QueryObject := {[ "_id" := VString "abc" ]} |}.

Definition update_entry : Oplog.t :=
  {| Oplog.Timestamp := 104; Oplog.HistoryID := 4; Oplog.MongoVersion := 2;
     Oplog.Operation := "u"; Oplog.Namespace := "metrics.raw";
     Oplog.Object := {[ "$set" := VDoc [("value", VInt64 7)] ]};
     Oplog.QueryObject := {[ "_id" := VObjectId sample_id ]} |}.

Definition insert_missing : Oplog.t :=
  {| Oplog.Timestamp := 105; Oplog.HistoryID := 5; Oplog.MongoVersion := 2;
     Oplog.Operation := "i"; Oplog.Namespace := "metrics.raw";
     Oplog.Object := {[ "_id" := VObjectId missing_id ]};
     Oplog.QueryObject := ∅ |}.

(** A database whose oplog ends with [latest_entry] at startup. *)
Definition sample_world (appended : list Oplog.t) (stop : option error) : World :=
  {| heap := ∅;
     oplog_rs := [latest_entry];
     oplog_appended := appended;
     iter_Err := stop;
     iter_Close := None;
     metrics_raw :=
       {[ sample_id := {| RawDoc.key := "cpu"; RawDoc.at_ := 60;
                          RawDoc.values := datapoints one_to_ten |} ]};
     metrics_summary := [];
     faults := [];
     journal := [] |}.

(** The heap once [stats] has decoded the stored document [d] into a [Raw]
    and summarised it: the decoded values, and their sorted copy. *)
Definition heapAfter (d : RawDoc.t) (h : Heap) : Heap :=
  let h1 := <[fresh (dom h) := DatapointArray (RawDoc.values d)]> h in
  <[fresh (dom h1) :=
      Float64Array (merge_sort Qcle (Datapoint.Value <$> RawDoc.values d))]> h1.

(** The selector [bson.M{"key": key, "at": at}]. *)
Definition keyAt (key : string) (at_ : Z) : M :=
  {[ "key" := VString key; "at" := VInt64 at_ ]}.

(** What a call of [stats] makes [main] panic with, if anything. *)
Definition failure (out : Outcome (option error)) : option PanicValue :=
  match out with
  | Returns None => None
  | Returns (Some err) => Some (PanicError err)
  | Panics p => Some p
  end.

(** Three changes to [metrics.raw] after startup, the second one for an
    entity that is not in the collection; then a cursor that dies. *)
Definition halting_world : World :=
  sample_world [insert_entry; insert_missing; update_entry] None.

Definition broken_stream_world : World :=
  sample_world [insert_entry] (Some (ErrOther "cursor lost")).

(** The states [main] goes through on [halting_world] and on
    [broken_stream_world]. *)
Definition halting_started : World := (latestOplog halting_world).1.

Definition halting_after_first : World :=
  (consume QuantileInterpolated [Hex sample_id] halting_started).1.

Definition halting_after_failure : World :=
  (stats QuantileInterpolated (Hex missing_id)
     (record (PrintOid (Hex missing_id)) halting_after_first)).1.

Definition broken_stream_started : World := (latestOplog broken_stream_world).1.

Definition broken_stream_drained : World :=
  (consume QuantileInterpolated [Hex sample_id] broken_stream_started).1.

(** [stat.Quantile(p, stat.Empirical, x, nil)] as [rawToSummary] calls it,
    on sorted values and with a probability between 0 and 1; the body of
    the library function is not among the repository's sources. The
    empirical kind is a step rule: with [fidx = p·n], it returns the lowest
    value whose running count reaches [fidx], interpolating nothing, and
    panics when no value does, as on an empty sequence. *)
Fixpoint stepFrom (fidx cumsum : float64) (x : list float64) : option float64 :=
  match x with
  | [] => None
  | v :: rest =>
      if decide (fidx ≤ cumsum + 1)%Qc then Some v
      else stepFrom fidx (cumsum + 1)%Qc rest
  end.

Definition QuantileStep (p : float64) (x : list float64) : option float64 :=
  stepFrom (p * float64_of_Z (Z.of_nat (length x)))%Qc (float64_of_Z 0) x.

(** ** Further notions and sample data *)

(** The documents handed to [Upsert], in the order of the calls. *)
Definition upserted (j : list Event) : list Summary.t :=
  j ≫= λ e, match e with Upsert _ _ _ doc => [doc] | _ => [] end.

(** The oplog documents printed by the tailer, in order. *)
Definition printedOplogs (j : list Event) : list Oplog.t :=
  j ≫= λ e, match e with PrintOplog o => [o] | _ => [] end.

(** [o] is an insert or an update with an ObjectId where [oidCh] looks for
    it, and [oid] is the hexadecimal form of that ObjectId. *)
Definition identifies (o : Oplog.t) (oid : string) : Prop :=
  ∃ boid, oid = Hex boid ∧
    ((Oplog.Operation o = "i" ∧ Oplog.Object o !! "_id" = Some (VObjectId boid)) ∨
     (Oplog.Operation o = "u" ∧ Oplog.QueryObject o !! "_id" = Some (VObjectId boid))).

(** The nine probabilities of [rawToSummary], in the order of the calls. *)
Definition probabilities : list float64 :=
  [lit 0; lit 1; lit 0.02; lit 0.09; lit 0.25; lit 0.50; lit 0.75; lit 0.91; lit 0.98].

(** The sample database before any oplog document exists. *)
Definition empty_oplog_world : World :=
  {| heap := ∅; oplog_rs := []; oplog_appended := [insert_entry];
     iter_Err := None; iter_Close := None;
     metrics_raw := metrics_raw (sample_world [] None);
     metrics_summary := []; faults := []; journal := [] |}.

(** The sample database when the server lets the lookup through and fails
    the upsert. *)
Definition failing_upsert_world : World :=
  {| heap := ∅; oplog_rs := [latest_entry]; oplog_appended := [];
     iter_Err := None; iter_Close := None;
     metrics_raw := metrics_raw (sample_world [] None);
     metrics_summary := [];
     faults := [None; Some (ErrOther "write refused")];
     journal := [] |}.

(** The values 1..10 in another order. *)
Definition shuffled_heap : Heap :=
  {[ 1%positive := DatapointArray (datapoints [7; 3; 10; 1; 5; 2; 9; 4; 8; 6]) ]}.

(** The stored document of the sample database and its summary. *)
Definition sample_doc : RawDoc.t :=
  {| RawDoc.key := "cpu"; RawDoc.at_ := 60; RawDoc.values := datapoints one_to_ten |}.

Definition sample_summary : Summary.t :=
  match summaryOf QuantileInterpolated "cpu" 60
          (merge_sort Qcle (Datapoint.Value <$> datapoints one_to_ten)) with
  | Some summary => summary
  | None =>
      {| Summary.Key := ""; Summary.At := 0;
         Summary.Min := lit 0; Summary.Max := lit 0; Summary.P2 := lit 0;
         Summary.P9 := lit 0; Summary.P25 := lit 0; Summary.P50 := lit 0;
         Summary.P75 := lit 0; Summary.P91 := lit 0; Summary.P98 := lit 0 |}
  end.

(** The sample database after two recomputations for the same entity. *)
Definition twice_recomputed : World :=
  (consume QuantileInterpolated [Hex sample_id; Hex sample_id] (sample_world [] None)).1.

(** A database that has seen an insert and an update before the process
    starts, and sees one more insert afterwards. *)
Definition busy_world : World :=
  {| heap := ∅; oplog_rs := [insert_entry; update_entry];
     oplog_appended := [insert_missing];
     iter_Err := Some (ErrOther "cursor lost"); iter_Close := None;
     metrics_raw := metrics_raw (sample_world [] None);
     metrics_summary := []; faults := []; journal := [] |}.

Definition busy_started : World := (latestOplog busy_world).1.


(** A summary whose statistics are all [v]. *)
Definition flat_summary (key : string) (at_ : Z) (v : Z) : Summary.t :=
  {| Summary.Key := key; Summary.At := at_;
     Summary.Min := float64_of_Z v; Summary.Max := float64_of_Z v;
     Summary.P2 := float64_of_Z v; Summary.P9 := float64_of_Z v;
     Summary.P25 := float64_of_Z v; Summary.P50 := float64_of_Z v;
     Summary.P75 := float64_of_Z v; Summary.P91 := float64_of_Z v;
     Summary.P98 := float64_of_Z v |}.

(** The sample database with summaries already stored: one of another
    series, a stale one of the sample series and bucket, and one of the
    sample series in a later bucket. *)
Definition crowded_world : World :=
  {| heap := ∅; oplog_rs := [latest_entry]; oplog_appended := [];
     iter_Err := None; iter_Close := None;
     metrics_raw := metrics_raw (sample_world [] None);
     metrics_summary :=
       [flat_summary "mem" 60 3; flat_summary "cpu" 60 0; flat_summary "cpu" 120 7];
     faults := []; journal := [] |}.

(** * Facts about the embedding *)

(** ** Slices and the heap *)

Lemma view_length h s dps :
  viewDatapoints h s = Some dps → length dps = len s.
Proof.
  unfold viewDatapoints. intros H.
  destruct (decide (len s = 0%nat)) as [E|E]; [by simplify_eq; rewrite E|].
  destruct (h !! base s) as [[a|a]|]; try done.
  case_decide; simplify_eq.
  rewrite length_take, length_drop. lia.
Qed.

Lemma view_load h s dps j d :
  viewDatapoints h s = Some dps → dps !! j = Some d → loadDatapoint h s j = Some d.
Proof.
  intros Hv Hj. pose proof (view_length _ _ _ Hv) as Hl.
  pose proof (lookup_lt_Some _ _ _ Hj) as Hlt.
  unfold viewDatapoints in Hv. unfold loadDatapoint.
  destruct (decide (len s = 0%nat)); [lia|].
  rewrite decide_True by lia.
  destruct (h !! base s) as [[a|a]|]; try done.
  case_decide; simplify_eq.
  rewrite lookup_take_lt, lookup_drop in Hj by lia. done.
Qed.

Lemma load_frame (h : Heap) l x s j d :
  h !! l = None → loadDatapoint h s j = Some d →
  loadDatapoint (<[l := x]> h) s j = Some d.
Proof.
  unfold loadDatapoint. intros Hl H. case_decide; [|done].
  destruct (decide (base s = l)) as [E|Hne].
  - rewrite E in H. by rewrite Hl in H.
  - by rewrite lookup_insert_ne.
Qed.

Lemma view_frame (h : Heap) l x s dps :
  h !! l = None → viewDatapoints h s = Some dps →
  viewDatapoints (<[l := x]> h) s = Some dps.
Proof.
  unfold viewDatapoints. intros Hl H. case_decide; [done|].
  destruct (decide (base s = l)) as [E|Hne].
  - rewrite E in H. by rewrite Hl in H.
  - by rewrite lookup_insert_ne.
Qed.

Lemma fresh_loc_None (h : Heap) : h !! fresh (dom h) = None.
Proof. apply not_elem_of_dom, is_fresh. Qed.

Section EngineFacts.

Variable Quantile : float64 → list float64 → option float64.

Lemma copyValues_run (h : Heap) l src dps k : ∀ i,
  h !! l = None →
  viewDatapoints h src = Some dps →
  (i + k ≤ len src)%nat →
  copyValues src {| base := l; off := 0; len := len src |} i k
    (<[l := Float64Array ((Datapoint.Value <$> take i dps)
                          ++ replicate (len src - i) (float64_of_Z 0))]> h)
  = Some (<[l := Float64Array ((Datapoint.Value <$> take (i + k) dps)
                          ++ replicate (len src - (i + k)) (float64_of_Z 0))]> h).
Proof.
  induction k as [|k IH]; intros i Hl Hv Hk; simpl.
  - by rewrite Nat.add_0_r.
  - pose proof (view_length _ _ _ Hv) as Hlen.
    destruct (lookup_lt_is_Some_2 dps i) as [d Hd]; [lia|].
    rewrite (load_frame _ _ _ _ _ _ Hl (view_load _ _ _ _ _ Hv Hd)). simpl.
    unfold storeFloat64. simpl.
    rewrite decide_True by lia. rewrite lookup_insert_eq.
    rewrite decide_True by (rewrite length_app, length_fmap, length_take, length_replicate; lia).
    simpl. rewrite insert_insert_eq.
    replace (<[i:=Datapoint.Value d]>
               ((Datapoint.Value <$> take i dps)
                ++ replicate (len src - i) (float64_of_Z 0)))
      with ((Datapoint.Value <$> take (S i) dps)
            ++ replicate (len src - S i) (float64_of_Z 0)).
    + rewrite IH by (done || lia). by rewrite Nat.add_succ_r.
    + rewrite (take_S_r _ _ _ Hd), fmap_app, <- app_assoc. simpl.
      replace (len src - i)%nat with (S (len src - S i)) by lia. simpl.
      rewrite insert_app_r_alt by (rewrite length_fmap, length_take; lia).
      rewrite length_fmap, length_take.
      replace (i - i `min` length dps)%nat with 0%nat by lia. done.
Qed.

Lemma merge_sort_length (l : list float64) : length (merge_sort Qcle l) = length l.
Proof. apply Permutation_length, merge_sort_Permutation. Qed.

(** What one call of [rawToSummary] does, for a [Raw] whose slice is live:
    the heap gains one array, the sorted copy of the values, and the summary
    is the one of that sorted copy. *)
Lemma rawToSummary_run (raw : Raw.t) (h : Heap) dps :
  viewDatapoints h (Raw.Values raw) = Some dps →
  rawToSummary Quantile raw h =
    (<[fresh (dom h) := Float64Array (merge_sort Qcle (Datapoint.Value <$> dps))]> h,
     match summaryOf Quantile (Raw.Key raw) (Raw.At raw)
             (merge_sort Qcle (Datapoint.Value <$> dps)) with
     | Some summary => Returns summary
     | None => Panics PanicQuantile
     end).
Proof.
  intros Hv. pose proof (view_length _ _ _ Hv) as Hlen.
  unfold rawToSummary, makeFloat64s.
  pose proof (copyValues_run h (fresh (dom h)) (Raw.Values raw) dps
                (len (Raw.Values raw)) 0%nat (fresh_loc_None h) Hv) as Hc.
  simpl in Hc. rewrite Nat.sub_0_r, Nat.sub_diag in Hc.
  rewrite Hc by lia. clear Hc.
  rewrite <- Hlen, firstn_all, app_nil_r.
  set (vs := Datapoint.Value <$> dps).
  assert (length vs = length dps) as Hvs by apply length_fmap.
  unfold sortFloat64s. cbn [base off len]. rewrite lookup_insert_eq.
  rewrite decide_True by lia.
  rewrite insert_insert_eq, take_0, drop_0, Nat.add_0_l. cbn [app].
  rewrite <- Hvs, firstn_all, drop_all, app_nil_r.
  unfold viewFloat64s. cbn [base off len]. rewrite lookup_insert_eq.
  rewrite decide_True by (rewrite merge_sort_length; lia).
  rewrite drop_0, <- (merge_sort_length vs), firstn_all.
  by destruct (summaryOf _ _ _ _).
Qed.

End EngineFacts.

(** ** The recomputation engine *)

Section EngineClaims.

Variable Quantile : float64 → list float64 → option float64.

(** Whatever the slice of [raw] is, the heap after the call is the heap
    before it plus one new array of floats. *)
Lemma copyValues_shape src l n (h : Heap) : ∀ i a len_ h2,
  copyValues src {| base := l; off := 0; len := len_ |} i n
    (<[l := Float64Array a]> h) = Some h2 →
  ∃ a', h2 = <[l := Float64Array a']> h.
Proof.
  induction n as [|n IH]; intros i a len_ h2; simpl.
  - intros [= <-]. by eexists.
  - destruct (loadDatapoint _ src i) as [d|]; [simpl|done].
    unfold storeFloat64. cbn [base off len]. case_decide; [|done].
    rewrite lookup_insert_eq. case_decide; [|done]. simpl.
    rewrite insert_insert_eq. apply IH.
Qed.

Lemma rawToSummary_heap (raw : Raw.t) (h : Heap) :
  ∃ a, (rawToSummary Quantile raw h).1 = <[fresh (dom h) := Float64Array a]> h.
Proof.
  unfold rawToSummary, makeFloat64s.
  destruct (copyValues _ _ _ _ _) as [h2|] eqn:Hc; [|by eexists].
  apply copyValues_shape in Hc as [a' ->].
  unfold sortFloat64s, viewFloat64s. cbn [base off len].
  rewrite lookup_insert_eq. case_decide; [|by eexists].
  rewrite insert_insert_eq, lookup_insert_eq.
  case_decide; [|by eexists].
  destruct (summaryOf _ _ _ _); by eexists.
Qed.

(** C10. [rawToSummary] does not mutate its input: every array that exists
    before the call has the same contents after it (the values are copied
    to a new array, and only that copy is sorted), so the observations the
    slice of [raw] shows keep their order and contents; the key and the
    bucket start time are passed by value. *)
Theorem rawToSummary_does_not_mutate (raw : Raw.t) (h : Heap) :
  h ⊆ (rawToSummary Quantile raw h).1 ∧
  viewDatapoints (rawToSummary Quantile raw h).1 (Raw.Values raw)
  = viewDatapoints h (Raw.Values raw).
Proof.
  destruct (rawToSummary_heap raw h) as [a ->].
  pose proof (fresh_loc_None h) as Hl. split.
  - by apply insert_subseteq.
  - unfold viewDatapoints. case_decide; [done|].
    destruct (decide (base (Raw.Values raw) = fresh (dom h))) as [E|Hne].
    + by rewrite E, lookup_insert_eq, Hl.
    + by rewrite lookup_insert_ne.
Qed.

Lemma summaryOf_inv key at_ x s :
  summaryOf Quantile key at_ x = Some s →
  Summary.Key s = key ∧ Summary.At s = at_ ∧
  Quantile (lit 0) x = Some (Summary.Min s) ∧
  Quantile (lit 1) x = Some (Summary.Max s) ∧
  Quantile (lit 0.50) x = Some (Summary.P50 s).
Proof.
  unfold summaryOf. intros H.
  repeat match type of H with
         | (?o ≫= _) = Some _ => destruct o eqn:?; simpl in H; [|done]
         end.
  by simplify_eq.
Qed.

Lemma summaryOf_is_Some key at_ x :
  (∀ p, (0 ≤ p)%Qc → (p ≤ 1)%Qc → is_Some (Quantile p x)) →
  is_Some (summaryOf Quantile key at_ x).
Proof.
  intros H. unfold summaryOf.
  repeat match goal with
         | |- is_Some (Quantile ?p x ≫= _) =>
             destruct (H p) as [? ->]; [by vm_compute | by vm_compute | simpl]
         end.
  by eexists.
Qed.

End EngineClaims.

(** ** The interpolated quantile of the spec *)

Lemma rank_bounds (p : float64) (n : Z) :
  (0 ≤ p)%Qc → (p ≤ 1)%Qc → 1 ≤ n →
  0 ≤ Qfloor (p * float64_of_Z (n - 1))%Qc ∧
  Qceiling (p * float64_of_Z (n - 1))%Qc ≤ n - 1 ∧
  Qfloor (p * float64_of_Z (n - 1))%Qc ≤ Qceiling (p * float64_of_Z (n - 1))%Qc.
Proof.
  intros H0 H1 Hn.
  assert ((p * float64_of_Z (n - 1))%Qc == this p * inject_Z (n - 1))%Q as E.
  { unfold Qcmult, Q2Qc. cbn [this]. apply Qred_correct. }
  unfold Qcle in H0, H1. cbn [this Q2Qc] in H0, H1.
  assert (0 <= inject_Z (n - 1))%Q as Hn'.
  { change 0%Q with (inject_Z 0). rewrite <- Zle_Qle. lia. }
  assert (0 <= this p * inject_Z (n - 1))%Q as Hlo by (by apply Qmult_le_0_compat).
  assert (this p * inject_Z (n - 1) <= inject_Z (n - 1))%Q as Hhi.
  { rewrite <- (Qmult_1_l (inject_Z (n - 1))) at 2.
    apply Qmult_le_compat_r; done. }
  rewrite (Qfloor_comp _ _ E), (Qceiling_comp _ _ E).
  split_and!.
  - exact (Qfloor_resp_le _ _ Hlo).
  - pose proof (Qceiling_resp_le _ _ Hhi) as X. by rewrite Qceiling_Z in X.
  - rewrite Zle_Qle. apply Qle_floor_ceiling.
Qed.

Lemma QuantileInterpolated_total (p : float64) (x : list float64) :
  (0 ≤ p)%Qc → (p ≤ 1)%Qc → x ≠ [] → is_Some (QuantileInterpolated p x).
Proof.
  intros H0 H1 Hx.
  assert (1 ≤ Z.of_nat (length x)) as Hn by (destruct x; [done | simpl; lia]).
  destruct (rank_bounds p _ H0 H1 Hn) as (Hf & Hc & Hfc).
  unfold QuantileInterpolated, index.
  rewrite !decide_True by lia.
  set (rank := (p * float64_of_Z (Z.of_nat (length x) - 1))%Qc) in *.
  destruct (lookup_lt_is_Some_2 x (Z.to_nat (Qfloor rank))) as [a ->]; [lia|].
  destruct (lookup_lt_is_Some_2 x (Z.to_nat (Qceiling rank))) as [b ->]; [lia|].
  by eexists.
Qed.

Lemma QuantileInterpolated_nil (p : float64) : QuantileInterpolated p [] = None.
Proof.
  unfold QuantileInterpolated, index.
  destruct (decide (0 ≤ Qfloor _)); [by rewrite lookup_nil | done].
Qed.

Lemma float64_of_Z_0 : float64_of_Z 0 = 0%Qc.
Proof. by apply Qc_is_canon. Qed.

(** At p = 0 and p = 1 the interpolated quantile is the first and the last
    value of the sequence. *)
Lemma QuantileInterpolated_ends (x : list float64) :
  QuantileInterpolated (lit 0) x = head x ∧
  QuantileInterpolated (lit 1) x = list.last x.
Proof.
  unfold QuantileInterpolated, lit. split.
  - rewrite Qcmult_0_l.
    change (Qfloor 0%Qc) with 0. change (Qceiling 0%Qc) with 0.
    unfold index. rewrite decide_True by done.
    change (Z.to_nat 0) with 0%nat. rewrite <- head_lookup.
    destruct (head x) as [a|]; [|done]. cbn. f_equal.
    rewrite float64_of_Z_0. ring.
  - rewrite Qcmult_1_l.
    change (this (float64_of_Z (Z.of_nat (length x) - 1)))
      with (inject_Z (Z.of_nat (length x) - 1)).
    rewrite Qfloor_Z, Qceiling_Z. unfold index.
    destruct x as [|v x _] using rev_ind; [done|].
    rewrite length_app, last_snoc. cbn [length].
    rewrite decide_True by lia.
    replace (Z.to_nat (Z.of_nat (length x + 1) - 1)) with (length x + 0)%nat by lia.
    rewrite lookup_app_r, Nat.add_0_r, Nat.sub_diag by lia. cbn. f_equal. ring.
Qed.

Lemma rawToSummary_interpolated_total (raw : Raw.t) (h : Heap) dps :
  viewDatapoints h (Raw.Values raw) = Some dps → dps ≠ [] →
  ∃ summary,
    rawToSummary QuantileInterpolated raw h
    = (<[fresh (dom h) := Float64Array (merge_sort Qcle (Datapoint.Value <$> dps))]> h,
       Returns summary) ∧
    summaryOf QuantileInterpolated (Raw.Key raw) (Raw.At raw)
      (merge_sort Qcle (Datapoint.Value <$> dps)) = Some summary.
Proof.
  intros Hv Hne. rewrite (rawToSummary_run _ _ _ _ Hv).
  destruct (summaryOf_is_Some QuantileInterpolated (Raw.Key raw) (Raw.At raw)
              (merge_sort Qcle (Datapoint.Value <$> dps))) as [s Hs].
  - intros p H0 H1. apply QuantileInterpolated_total; [done..|].
    intros E. apply (f_equal length) in E.
    rewrite merge_sort_length, length_fmap in E. by destruct dps.
  - exists s. by rewrite Hs.
Qed.

(** With the quantile the spec describes (linear interpolation at rank
    p·(n−1)), the summary of a series whose values are 1, 2, ..., 10 in this
    order would have min = 1, max = 10 and 50th percentile = 5.5. *)
Theorem quantiles_of_one_to_ten (raw : Raw.t) (h : Heap) dps :
  viewDatapoints h (Raw.Values raw) = Some dps →
  Datapoint.Value <$> dps = float64_of_Z <$> one_to_ten →
  ∃ summary,
    (rawToSummary QuantileInterpolated raw h).2 = Returns summary ∧
    Summary.Min summary = float64_of_Z 1 ∧
    Summary.Max summary = float64_of_Z 10 ∧
    Summary.P50 summary = lit 5.5.
Proof.
  intros Hv Hvals.
  destruct (rawToSummary_interpolated_total raw h dps Hv) as (s & -> & Hs).
  { intros ->. discriminate Hvals. }
  exists s. split; [done|].
  rewrite Hvals in Hs.
  apply summaryOf_inv in Hs as (_ & _ & Hmin & Hmax & H50).
  destruct s as [k a mn mx p2 p9 p25 p50 p75 p91 p98].
  cbn [Summary.Min Summary.Max Summary.P50] in *.
  vm_compute in Hmin, Hmax, H50.
  injection Hmin as <-. injection Hmax as <-. injection H50 as <-.
  split_and!; by apply Qc_is_canon.
Qed.

Lemma quantiles_of_one_to_ten_witness :
  ∃ summary,
    (rawToSummary QuantileInterpolated sample_raw sample_heap).2 = Returns summary ∧
    Summary.Min summary = float64_of_Z 1 ∧
    Summary.Max summary = float64_of_Z 10 ∧
    Summary.P50 summary = lit 5.5.
Proof.
  apply (quantiles_of_one_to_ten sample_raw sample_heap (datapoints one_to_ten));
    reflexivity.
Defined.

(** With the empirical quantile the same series has min = 1 and max = 10,
    and 50th percentile 5. *)
Lemma step_rule_median_of_one_to_ten :
  ∃ summary,
    (rawToSummary QuantileStep sample_raw sample_heap).2 = Returns summary ∧
    Summary.Min summary = float64_of_Z 1 ∧
    Summary.Max summary = float64_of_Z 10 ∧
    Summary.P50 summary = float64_of_Z 5.
Proof.
  rewrite (rawToSummary_run QuantileStep sample_raw sample_heap (datapoints one_to_ten))
    by reflexivity.
  destruct (summaryOf QuantileStep _ _ _) as [s|] eqn:Hs; [|by vm_compute in Hs].
  exists s. split; [done|].
  apply summaryOf_inv in Hs as (_ & _ & Hmin & Hmax & H50).
  destruct s as [k a mn mx p2 p9 p25 p50 p75 p91 p98].
  cbn [Summary.Min Summary.Max Summary.P50] in *.
  vm_compute in Hmin, Hmax, H50.
  injection Hmin as <-. injection Hmax as <-. injection H50 as <-.
  split_and!; by apply Qc_is_canon.
Qed.

(** C9. Recomputation needs at least one observation: with the quantile of
    the spec, [rawToSummary] returns a summary for every [Raw] with a
    non-empty list of values, and panics inside the first quantile call when
    the list is empty. *)
Theorem rawToSummary_needs_an_observation (raw : Raw.t) (h : Heap) dps :
  viewDatapoints h (Raw.Values raw) = Some dps →
  (dps ≠ [] →
   ∃ summary, (rawToSummary QuantileInterpolated raw h).2 = Returns summary) ∧
  (dps = [] →
   QuantileInterpolated (lit 0) (merge_sort Qcle (Datapoint.Value <$> dps)) = None ∧
   (rawToSummary QuantileInterpolated raw h).2 = Panics PanicQuantile).
Proof.
  intros Hv. split.
  - intros Hne.
    destruct (rawToSummary_interpolated_total raw h dps Hv Hne) as (s & -> & _).
    by exists s.
  - intros ->. rewrite (rawToSummary_run _ _ _ _ Hv). done.
Qed.

Lemma rawToSummary_needs_an_observation_witness :
  (∃ summary,
     (rawToSummary QuantileInterpolated sample_raw sample_heap).2 = Returns summary) ∧
  (rawToSummary QuantileInterpolated empty_raw sample_heap).2 = Panics PanicQuantile.
Proof.
  split.
  - apply (rawToSummary_needs_an_observation sample_raw sample_heap
             (datapoints one_to_ten)); [reflexivity | discriminate].
  - apply (rawToSummary_needs_an_observation empty_raw sample_heap []);
      reflexivity.
Defined.

(** ** The tailing queries *)

Lemma matchOperator_gt arg v :
  matchOperator "$gt" arg (Some v) = bool_decide (compareValues v arg = Some Gt).
Proof. reflexivity. Qed.

Lemma matchOperator_gte arg v :
  matchOperator "$gte" arg (Some v)
  = bool_decide (compareValues v arg = Some Gt ∨ compareValues v arg = Some Eq).
Proof. reflexivity. Qed.

Lemma matchOperator_in l v :
  matchOperator "$in" (VArray l) (Some v) = existsb (valueEqb v) l.
Proof. reflexivity. Qed.

Lemma matches_tailQuery (lo o : Oplog.t) :
  matches (oplogField o) (tailQuery lo) = true ↔
    Oplog.Timestamp lo < Oplog.Timestamp o ∧ Oplog.Namespace o = "metrics.raw" ∧
    (Oplog.Operation o = "i" ∨ Oplog.Operation o = "u").
Proof.
  unfold matches, tailQuery. rewrite bool_decide_eq_true.
  rewrite !map_Forall_insert, map_Forall_singleton
    by (by rewrite ?lookup_insert_ne, ?lookup_singleton_ne).
  change (oplogField o "ts") with (Some (VTimestamp (Oplog.Timestamp o))).
  change (oplogField o "ns") with (Some (VString (Oplog.Namespace o))).
  change (oplogField o "op") with (Some (VString (Oplog.Operation o))).
  cbn [matchField forallb isOperator fst snd].
  rewrite matchOperator_gt, matchOperator_in.
  cbn [compareValues valueEqb existsb].
  rewrite !andb_true_r, orb_false_r, orb_true_iff, !bool_decide_eq_true.
  rewrite (inj_iff Some), Z.compare_gt_iff. tauto.
Qed.

Lemma matches_Tail_tailQuery (lo o : Oplog.t) :
  matches (oplogField o) (Tail.tailQuery lo) = true ↔
    Oplog.Timestamp lo ≤ Oplog.Timestamp o.
Proof.
  unfold matches, Tail.tailQuery. rewrite bool_decide_eq_true, map_Forall_singleton.
  change (oplogField o "ts") with (Some (VTimestamp (Oplog.Timestamp o))).
  cbn [matchField forallb isOperator fst snd].
  rewrite matchOperator_gte. cbn [compareValues].
  rewrite !andb_true_r, bool_decide_eq_true.
  rewrite !(inj_iff Some), Z.compare_gt_iff, Z.compare_eq_iff. lia.
Qed.

(** C2 (amended). The subscription of the summary pipeline is sent, in the
    order of the oplog, exactly the documents whose timestamp is strictly
    greater than the one of the resume document [lo], whose namespace is
    [metrics.raw] and whose operation is insert or update. The subscription
    of the plain tailer is sent the documents whose timestamp is greater
    than or equal to the one of [lo], of any namespace and operation. *)
Theorem subscriptions_request (w : World) (lo : Oplog.t) :
  (oplogCh w (tailQuery lo)).1
  = filter (λ o, Oplog.Timestamp lo < Oplog.Timestamp o ∧
                 Oplog.Namespace o = "metrics.raw" ∧
                 (Oplog.Operation o = "i" ∨ Oplog.Operation o = "u"))
      (oplog_rs w ++ oplog_appended w) ∧
  Tail.delivered w (Tail.tailQuery lo)
  = filter (λ o, Oplog.Timestamp lo ≤ Oplog.Timestamp o)
      (oplog_rs w ++ oplog_appended w).
Proof.
  split.
  - unfold oplogCh. cbn [fst]. apply list_filter_iff. intros o.
    apply matches_tailQuery.
  - unfold Tail.delivered. apply list_filter_iff. intros o.
    apply matches_Tail_tailQuery.
Qed.

(** The tailer is sent the resume document itself, a no-op outside
    [metrics.raw]. *)
Lemma tailer_replays_resume_entry :
  list.last (oplog_rs (sample_world [] None)) = Some latest_entry ∧
  Tail.delivered (sample_world [] None) (Tail.tailQuery latest_entry) = [latest_entry] ∧
  ¬ (Oplog.Timestamp latest_entry < Oplog.Timestamp latest_entry) ∧
  Oplog.Namespace latest_entry ≠ "metrics.raw" ∧
  Oplog.Operation latest_entry ≠ "i" ∧ Oplog.Operation latest_entry ≠ "u".
Proof. split_and!; [reflexivity | by vm_compute | done..]. Qed.

(** ** The identifier stage *)

Lemma oidCh_cons o in_ : oidCh (o :: in_) = oidSend o ++ oidCh in_.
Proof. reflexivity. Qed.

Lemma oidCh_app in1 in2 : oidCh (in1 ++ in2) = oidCh in1 ++ oidCh in2.
Proof. apply bind_app. Qed.

Lemma oidSend_insert (o : Oplog.t) :
  Oplog.Operation o = "i" →
  oidSend o = match Oplog.Object o !! "_id" with
              | Some (VObjectId boid) => [Hex boid]
              | _ => []
              end.
Proof.
  intros Hop. unfold oidSend. rewrite Hop.
  rewrite decide_True, decide_False by done. apply app_nil_r.
Qed.

Lemma oidSend_update (o : Oplog.t) :
  Oplog.Operation o = "u" →
  oidSend o = match Oplog.QueryObject o !! "_id" with
              | Some (VObjectId boid) => [Hex boid]
              | _ => []
              end.
Proof.
  intros Hop. unfold oidSend. rewrite Hop.
  by rewrite decide_False, decide_True by done.
Qed.

Lemma oidSend_other (o : Oplog.t) :
  Oplog.Operation o ≠ "i" → Oplog.Operation o ≠ "u" → oidSend o = [].
Proof. intros. unfold oidSend. by rewrite !decide_False. Qed.

(** C3 (amended). For every insert whose payload holds an [_id] of type
    ObjectId, the extractor sends exactly one identifier for it, the
    hexadecimal form of that ObjectId, in the position of the document in
    the stream. *)
Theorem insert_yields_hex_of_object_id (pre post : list Oplog.t) (o : Oplog.t) boid :
  Oplog.Operation o = "i" →
  Oplog.Object o !! "_id" = Some (VObjectId boid) →
  oidSend o = [Hex boid] ∧
  oidCh (pre ++ o :: post) = oidCh pre ++ Hex boid :: oidCh post.
Proof.
  intros Hop Hid.
  assert (oidSend o = [Hex boid]) as E by (by rewrite oidSend_insert, Hid).
  by rewrite oidCh_app, oidCh_cons, E.
Qed.

Lemma insert_yields_hex_of_object_id_witness :
  oidSend insert_entry = [Hex sample_id] ∧
  oidCh ([latest_entry] ++ insert_entry :: [update_abc])
  = oidCh [latest_entry] ++ Hex sample_id :: oidCh [update_abc].
Proof.
  apply (insert_yields_hex_of_object_id [latest_entry] [update_abc] insert_entry sample_id);
    reflexivity.
Defined.

(** An insert with payload [{_id: "abc", value: 5}] yields no identifier. *)
Lemma insert_abc_yields_nothing :
  Oplog.Operation insert_abc = "i" ∧
  Oplog.Object insert_abc !! "_id" = Some (VString "abc") ∧
  oidCh [insert_abc] = [].
Proof. split_and!; reflexivity. Qed.

(** C4 (amended). For every update the extractor looks at the selector
    only: it sends the hexadecimal form of the selector's [_id] when that is
    an ObjectId and nothing otherwise, whatever the payload is. *)
Theorem update_reads_selector_only (o : Oplog.t) (payload : M) :
  Oplog.Operation o = "u" →
  oidSend o = match Oplog.QueryObject o !! "_id" with
              | Some (VObjectId boid) => [Hex boid]
              | _ => []
              end ∧
  oidSend (withObject payload o) = oidSend o.
Proof.
  intros Hop. split; [by apply oidSend_update|].
  by rewrite !oidSend_update.
Qed.

Lemma update_reads_selector_only_witness :
  oidSend update_entry = [Hex sample_id] ∧
  oidSend (withObject {[ "_id" := VObjectId missing_id ]} update_entry)
  = oidSend update_entry.
Proof.
  apply (update_reads_selector_only update_entry {[ "_id" := VObjectId missing_id ]}).
  reflexivity.
Defined.

(** An update with selector [{_id: "abc"}] and payload [{$set: {value: 7}}]
    yields no identifier. *)
Lemma update_abc_yields_nothing :
  Oplog.Operation update_abc = "u" ∧
  Oplog.QueryObject update_abc !! "_id" = Some (VString "abc") ∧
  oidCh [update_abc] = [].
Proof. split_and!; reflexivity. Qed.

Lemma Hex_length (id : string) : String.length (Hex id) = (2 * String.length id)%nat.
Proof.
  unfold Hex. induction id as [|c id IH]; [done|].
  cbn [EncodeToString String.length]. rewrite IH. lia.
Qed.

(** Whatever the extractor sends is the hexadecimal form of an ObjectId. *)
Lemma oidSend_hex (o : Oplog.t) (oid : string) :
  oid ∈ oidSend o → ∃ boid, oid = Hex boid.
Proof.
  unfold oidSend. rewrite elem_of_app. intros [Hin|Hin].
  - destruct (decide (Oplog.Operation o = "i")); [|by apply elem_of_nil in Hin].
    destruct (Oplog.Object o !! "_id") as [[boid| | | | | |]|];
      try by apply elem_of_nil in Hin.
    apply list_elem_of_singleton in Hin. by exists boid.
  - destruct (decide (Oplog.Operation o = "u")); [|by apply elem_of_nil in Hin].
    destruct (Oplog.QueryObject o !! "_id") as [[boid| | | | | |]|];
      try by apply elem_of_nil in Hin.
    apply list_elem_of_singleton in Hin. by exists boid.
Qed.

(** No oplog document makes the extractor send "abc": what it sends has an
    even number of characters. *)
Lemma abc_is_never_sent (in_ : list Oplog.t) : "abc" ∉ oidCh in_.
Proof.
  unfold oidCh. rewrite list_elem_of_bind. intros (o & Hin & _).
  apply oidSend_hex in Hin as [boid E].
  apply (f_equal String.length) in E.
  rewrite Hex_length in E. simpl in E. lia.
Qed.


Lemma hex_byte_roundtrip (c : ascii) :
  (hi ← fromHexChar (hexChar (N.shiftr (N_of_ascii c) 4));
   lo ← fromHexChar (hexChar (N.land (N_of_ascii c) 15));
   Some (ascii_of_N (N.lor (N.shiftl hi 4) lo))) = Some c.
Proof.
  destruct c as [[] [] [] [] [] [] [] []]; reflexivity.
Qed.

Lemma DecodeString_EncodeToString (s : string) :
  DecodeString (EncodeToString s) = Some s.
Proof.
  induction s as [|c s IH]; [done|].
  cbn [EncodeToString DecodeString]. rewrite IH.
  pose proof (hex_byte_roundtrip c) as Hc.
  destruct (fromHexChar (hexChar (N.shiftr (N_of_ascii c) 4))) as [hi|]; [|done].
  destruct (fromHexChar (hexChar (N.land (N_of_ascii c) 15))) as [lo|]; [|done].
  cbn in Hc |- *. by injection Hc as ->.
Qed.

(** The identifier of a 12-byte ObjectId is read back by [stats]. *)
Lemma ObjectIdHex_Hex (id : string) :
  String.length id = 12%nat → ObjectIdHex (Hex id) = Returns id.
Proof.
  intros Hlen. unfold ObjectIdHex, Hex.
  rewrite DecodeString_EncodeToString. by rewrite decide_True.
Qed.

Section IdentifierClaims.

Variable Quantile : float64 → list float64 → option float64.

(** C5. An oplog document whose identifier field ([_id] of the payload for
    an insert, of the selector for an update) is absent or is not an
    ObjectId makes the extractor send nothing; the stage has no error
    output, and the documents before and after it are handled as if it were
    not in the stream, by the extractor and by the loop of [main]. *)
Theorem drop_is_silent (pre post : list Oplog.t) (o : Oplog.t) (w : World) :
  (Oplog.Operation o = "i" → ∀ boid, Oplog.Object o !! "_id" ≠ Some (VObjectId boid)) →
  (Oplog.Operation o = "u" → ∀ boid, Oplog.QueryObject o !! "_id" ≠ Some (VObjectId boid)) →
  oidSend o = [] ∧
  oidCh (pre ++ o :: post) = oidCh pre ++ oidCh post ∧
  consume Quantile (oidCh (pre ++ o :: post)) w
  = consume Quantile (oidCh (pre ++ post)) w.
Proof.
  intros Hi Hu.
  assert (oidSend o = []) as E.
  { destruct (decide (Oplog.Operation o = "i")) as [Hop|Hni].
    - rewrite oidSend_insert by done. specialize (Hi Hop).
      destruct (Oplog.Object o !! "_id") as [[]|]; naive_solver.
    - destruct (decide (Oplog.Operation o = "u")) as [Hop|Hnu].
      + rewrite oidSend_update by done. specialize (Hu Hop).
        destruct (Oplog.QueryObject o !! "_id") as [[]|]; naive_solver.
      + by apply oidSend_other. }
  rewrite !oidCh_app, oidCh_cons, E. done.
Qed.

End IdentifierClaims.

Lemma drop_is_silent_witness :
  oidSend insert_abc = [] ∧
  oidCh ([insert_entry] ++ insert_abc :: [update_entry])
  = oidCh [insert_entry] ++ oidCh [update_entry] ∧
  consume QuantileInterpolated (oidCh ([insert_entry] ++ insert_abc :: [update_entry]))
    (sample_world [] None)
  = consume QuantileInterpolated (oidCh ([insert_entry] ++ [update_entry]))
      (sample_world [] None).
Proof.
  apply (drop_is_silent QuantileInterpolated [insert_entry] [update_entry] insert_abc).
  - intros _ boid. vm_compute. discriminate.
  - intros Hop. vm_compute in Hop. discriminate.
Defined.

(** ** The summary store *)

Lemma matches_keyAt (s : Summary.t) (key : string) (at_ : Z) :
  matches (summaryField s) (keyAt key at_) = true ↔
  Summary.Key s = key ∧ Summary.At s = at_.
Proof.
  unfold matches, keyAt. rewrite bool_decide_eq_true.
  rewrite map_Forall_insert, map_Forall_singleton by done.
  change (summaryField s "key") with (Some (VString (Summary.Key s))).
  change (summaryField s "at") with (Some (VInt64 (Summary.At s))).
  cbn [matchField valueEqb]. by rewrite !bool_decide_eq_true.
Qed.

Lemma keyAt_no_id (key : string) (at_ : Z) : keyAt key at_ !! "_id" = None.
Proof. done. Qed.

Lemma upsertDoc_cons (sel : M) (doc d : Summary.t) (c : list Summary.t) :
  upsertDoc sel doc (d :: c)
  = if matches (summaryField d) sel then doc :: c else d :: upsertDoc sel doc c.
Proof.
  unfold upsertDoc. cbn [replaceFirst].
  destruct (matches (summaryField d) sel); [done|].
  by destruct (replaceFirst sel doc c).
Qed.

Lemma upsertDoc_elem (sel : M) (doc : Summary.t) (c : list Summary.t) :
  doc ∈ upsertDoc sel doc c.
Proof.
  induction c as [|d c IH].
  - apply list_elem_of_singleton. done.
  - rewrite upsertDoc_cons. destruct (matches _ _); set_solver.
Qed.

(** Upserting the same summary under its own key a second time changes
    nothing. *)
Lemma upsertDoc_idempotent (doc : Summary.t) (c : list Summary.t) :
  let sel := keyAt (Summary.Key doc) (Summary.At doc) in
  upsertDoc sel doc (upsertDoc sel doc c) = upsertDoc sel doc c.
Proof.
  intros sel.
  assert (matches (summaryField doc) sel = true) as Hself by (by apply matches_keyAt).
  induction c as [|d c IH].
  - unfold upsertDoc at 2. cbn. by rewrite upsertDoc_cons, Hself.
  - rewrite (upsertDoc_cons sel doc d c).
    destruct (matches (summaryField d) sel) eqn:Hd.
    + by rewrite upsertDoc_cons, Hself.
    + by rewrite upsertDoc_cons, Hd, IH.
Qed.

(** ** One recomputation *)

Lemma decodeRaw_view (d : RawDoc.t) (h : Heap) :
  viewDatapoints (decodeRaw d h).2 (Raw.Values (decodeRaw d h).1) = Some (RawDoc.values d).
Proof.
  unfold decodeRaw, viewDatapoints. cbn [fst snd Raw.Values base off len].
  case_decide as E.
  - by rewrite (nil_length_inv _ E).
  - rewrite lookup_insert_eq, decide_True by (simpl; lia).
    by rewrite drop_0, firstn_all.
Qed.

Lemma view_heapAfter (d : RawDoc.t) (h : Heap) :
  viewDatapoints (heapAfter d h) (Raw.Values (decodeRaw d h).1) = Some (RawDoc.values d).
Proof.
  unfold heapAfter. apply view_frame; [apply fresh_loc_None|].
  apply decodeRaw_view.
Qed.

Section PipelineClaims.

Variable Quantile : float64 → list float64 → option float64.

Lemma stats_run (oid : string) (w : World) :
  stats Quantile oid w =
  match ObjectIdHex oid with
  | Panics p => (w, Panics p)
  | Returns id =>
      let '(fault, w1) :=
        nextFault (record (FindOne "metrics" "raw" {[ "_id" := VObjectId id ]}) w) in
      match fault, metrics_raw w !! id with
      | Some err, _ => (w1, Returns (Some err))
      | None, None => (w1, Returns (Some ErrNotFound))
      | None, Some d =>
          let w2 := set_heap (heapAfter d (heap w)) w1 in
          match summaryOf Quantile (RawDoc.key d) (RawDoc.at_ d)
                  (merge_sort Qcle (Datapoint.Value <$> RawDoc.values d)) with
          | None => (w2, Panics PanicQuantile)
          | Some summary =>
              let '(w3, err) :=
                upsertSummary (keyAt (Summary.Key summary) (Summary.At summary))
                  summary w2 in
              (record (PrintRaw (RawDoc.key d) (RawDoc.at_ d) (RawDoc.values d)) w3,
               Returns err)
          end
      end
  end.
Proof.
  unfold stats. destruct (ObjectIdHex oid) as [id|p]; [|done].
  unfold findOneRaw, nextFault.
  destruct w as [h rs ap ie ic mr ms fs j].
  destruct fs as [|[err|] fs]; cbn -[decodeRaw rawToSummary]; [|done|].
  all: destruct (mr !! id) as [d|]; [|done].
  all: pose proof (decodeRaw_view d h) as Hv.
  all: pose proof (view_heapAfter d h) as Hp.
  all: destruct (decodeRaw d h) as [raw h1] eqn:Hd; cbn [fst snd] in Hv, Hp.
  all: cbn -[rawToSummary].
  all: rewrite (rawToSummary_run _ _ _ _ Hv).
  all: unfold decodeRaw in Hd; injection Hd as <- <-; cbn [Raw.Key Raw.At].
  all: fold (heapAfter d h).
  all: destruct (summaryOf _ _ _ _) as [s|]; [|done].
  all: unfold upsertSummary, nextFault, printRaw, keyAt.
  all: cbn [Raw.Values] in Hp.
  - cbn -[viewDatapoints heapAfter]. by rewrite Hp.
  - destruct fs as [|[err|] fs]; cbn -[viewDatapoints heapAfter]; by rewrite Hp.
Qed.

Lemma stats_keeps_raw (oid : string) (w : World) :
  metrics_raw (stats Quantile oid w).1 = metrics_raw w.
Proof.
  rewrite stats_run. unfold upsertSummary, nextFault.
  destruct w as [h rs ap ie ic mr ms fs j]. cbn.
  repeat (case_match; simplify_eq; cbn; try done).
Qed.

Lemma stats_prints_no_oid (oid : string) (w : World) :
  printedOids (journal (stats Quantile oid w).1) = printedOids (journal w).
Proof.
  rewrite stats_run. unfold upsertSummary, nextFault, printedOids.
  destruct w as [h rs ap ie ic mr ms fs j]. cbn.
  repeat (case_match; simplify_eq; cbn; try done);
    rewrite ?bind_app; cbn; by rewrite ?app_nil_r.
Qed.

Lemma stats_summary_coll (oid : string) (w : World) :
  metrics_summary (stats Quantile oid w).1 = metrics_summary w ∨
  ∃ id d summary,
    ObjectIdHex oid = Returns id ∧ metrics_raw w !! id = Some d ∧
    summaryOf Quantile (RawDoc.key d) (RawDoc.at_ d)
      (merge_sort Qcle (Datapoint.Value <$> RawDoc.values d)) = Some summary ∧
    (stats Quantile oid w).2 = Returns None ∧
    metrics_summary (stats Quantile oid w).1
    = upsertDoc (keyAt (Summary.Key summary) (Summary.At summary)) summary
        (metrics_summary w).
Proof.
  rewrite stats_run. unfold upsertSummary, nextFault.
  destruct w as [h rs ap ie ic mr ms fs j]. cbn.
  destruct (ObjectIdHex oid) as [id|]; [|by left].
  destruct fs as [|[err|] fs]; cbn; [|by left|].
  all: destruct (mr !! id) as [d|] eqn:Hd; [|by left].
  all: destruct (summaryOf _ _ _ _) as [s|] eqn:Hs; [|by left].
  - right. by exists id, d, s.
  - destruct fs as [|[err|] fs]; cbn; [|by left|]; right; by exists id, d, s.
Qed.

Lemma stats_success (oid : string) (w w1 : World) :
  stats Quantile oid w = (w1, Returns None) →
  ∃ id d summary,
    ObjectIdHex oid = Returns id ∧ metrics_raw w !! id = Some d ∧
    summaryOf Quantile (RawDoc.key d) (RawDoc.at_ d)
      (merge_sort Qcle (Datapoint.Value <$> RawDoc.values d)) = Some summary ∧
    metrics_summary w1
    = upsertDoc (keyAt (Summary.Key summary) (Summary.At summary)) summary
        (metrics_summary w) ∧
    journal w1
    = journal w ++
      [FindOne "metrics" "raw" {[ "_id" := VObjectId id ]};
       Upsert "metrics" "summary"
         (keyAt (Summary.Key summary) (Summary.At summary)) summary;
       PrintRaw (RawDoc.key d) (RawDoc.at_ d) (RawDoc.values d)].
Proof.
  rewrite stats_run. unfold upsertSummary, nextFault.
  destruct w as [h rs ap ie ic mr ms fs j]. cbn.
  destruct (ObjectIdHex oid) as [id|]; [|done].
  destruct fs as [|[err|] fs]; cbn; [|done|].
  all: destruct (mr !! id) as [d|] eqn:Hd; [|done].
  all: destruct (summaryOf _ _ _ _) as [s|] eqn:Hs; [|done].
  2: destruct fs as [|[err|] fs]; cbn; [|done|].
  all: intros [= <-]; exists id, d, s; cbn.
  all: by rewrite <- !app_assoc.
Qed.

(** C7. The summary is persisted under the pair (series key, bucket start
    time) of the loaded raw document, not under the entity identifier: every
    [Upsert] that a recomputation issues goes to [metrics.summary] with the
    selector [{key: raw.Key, at: raw.At}], which has no [_id], and with a
    summary carrying the same key and bucket start time; a recomputation
    that succeeds has issued one, and its summary is in the collection. *)
Theorem upsert_keyed_by_series_and_bucket (oid : string) (w w' : World)
    (r : Outcome (option error)) :
  stats Quantile oid w = (w', r) →
  ∃ evs,
    journal w' = journal w ++ evs ∧
    (r = Returns None →
     ∃ doc, Upsert "metrics" "summary"
              (keyAt (Summary.Key doc) (Summary.At doc)) doc ∈ evs ∧
            doc ∈ metrics_summary w') ∧
    (∀ db coll sel doc,
       Upsert db coll sel doc ∈ evs →
       ∃ id d,
         ObjectIdHex oid = Returns id ∧ metrics_raw w !! id = Some d ∧
         db = "metrics" ∧ coll = "summary" ∧
         sel = keyAt (RawDoc.key d) (RawDoc.at_ d) ∧ sel !! "_id" = None ∧
         Summary.Key doc = RawDoc.key d ∧ Summary.At doc = RawDoc.at_ d).
Proof.
  rewrite stats_run. unfold upsertSummary, nextFault.
  destruct w as [h rs ap ie ic mr ms fs j]. cbn.
  destruct (ObjectIdHex oid) as [id|].
  2: { intros [= <- <-]. exists []. rewrite app_nil_r.
       split_and!; [done..|]. intros ???? Hin. by apply elem_of_nil in Hin. }
  assert (∀ d s,
    mr !! id = Some d →
    summaryOf Quantile (RawDoc.key d) (RawDoc.at_ d)
      (merge_sort Qcle (Datapoint.Value <$> RawDoc.values d)) = Some s →
    ∀ db coll sel doc,
      Upsert db coll sel doc ∈
        [FindOne "metrics" "raw" {[ "_id" := VObjectId id ]};
         Upsert "metrics" "summary" (keyAt (Summary.Key s) (Summary.At s)) s;
         PrintRaw (RawDoc.key d) (RawDoc.at_ d) (RawDoc.values d)] →
      ∃ id' d',
        Returns (A := string) id = Returns id' ∧ mr !! id' = Some d' ∧
        db = "metrics" ∧ coll = "summary" ∧
        sel = keyAt (RawDoc.key d') (RawDoc.at_ d') ∧ sel !! "_id" = None ∧
        Summary.Key doc = RawDoc.key d' ∧ Summary.At doc = RawDoc.at_ d') as Hups.
  { intros d s Hd Hs db coll sel doc Hin.
    apply summaryOf_inv in Hs as (Hk & Ha & _).
    rewrite !elem_of_cons in Hin.
    destruct Hin as [?|[E|[?|Hin]]]; try done; [|by apply elem_of_nil in Hin].
    injection E as -> -> -> ->. exists id, d. by rewrite Hk, Ha. }
  assert (∀ db coll sel doc,
    Upsert db coll sel doc ∈ [FindOne "metrics" "raw" {[ "_id" := VObjectId id ]}] →
    False) as Hnone.
  { intros ???? Hin. apply list_elem_of_singleton in Hin. done. }
  destruct fs as [|[err|] fs]; cbn.
  2: { intros [= <- <-]. eexists. split; [done|]. split; [done|].
       intros ???? Hin. by destruct (Hnone _ _ _ _ Hin). }
  all: destruct (mr !! id) as [d|] eqn:Hd.
  2,4: intros [= <- <-]; eexists; (split; [done|]); (split; [done|]);
       intros ???? Hin; by destruct (Hnone _ _ _ _ Hin).
  all: destruct (summaryOf _ _ _ _) as [s|] eqn:Hs.
  2,4: intros [= <- <-]; eexists; (split; [done|]); (split; [done|]);
       intros ???? Hin; by destruct (Hnone _ _ _ _ Hin).
  2: destruct fs as [|[err|] fs]; cbn.
  all: intros [= <- <-]; cbn; rewrite <- !app_assoc; cbn.
  all: eexists; (split; [done|]); split; [|by apply (Hups d s)].
  all: try done.
  all: intros _; exists s; split; [set_solver | apply upsertDoc_elem].
Qed.

Lemma consume_stable (oid : string) (n : nat) : ∀ w1 : World,
  (∃ id d summary,
     ObjectIdHex oid = Returns id ∧ metrics_raw w1 !! id = Some d ∧
     summaryOf Quantile (RawDoc.key d) (RawDoc.at_ d)
       (merge_sort Qcle (Datapoint.Value <$> RawDoc.values d)) = Some summary ∧
     upsertDoc (keyAt (Summary.Key summary) (Summary.At summary)) summary
       (metrics_summary w1) = metrics_summary w1) →
  metrics_summary (consume Quantile (replicate n oid) w1).1 = metrics_summary w1.
Proof.
  induction n as [|n IH]; intros w1 Inv; [done|].
  cbn [replicate consume].
  set (w1' := record (PrintOid oid) w1).
  assert (metrics_summary (stats Quantile oid w1').1 = metrics_summary w1) as Hsame.
  { destruct Inv as (id & d & s & Hid & Hd & Hs & Hfix).
    destruct (stats_summary_coll oid w1') as [E|(id' & d' & s' & Hid' & Hd' & Hs' & _ & E)];
      [done|].
    rewrite E. rewrite Hid in Hid'. injection Hid' as <-.
    change (metrics_raw w1') with (metrics_raw w1) in Hd'.
    rewrite Hd in Hd'. injection Hd' as <-.
    rewrite Hs in Hs'. injection Hs' as <-. done. }
  pose proof (stats_keeps_raw oid w1') as Hraw.
  destruct (stats Quantile oid w1') as [w2 [[err|]|p]]; cbn [fst] in *; try done.
  rewrite IH; [done|].
  destruct Inv as (id & d & s & Hid & Hd & Hs & Hfix).
  exists id, d, s. by rewrite Hraw, Hsame.
Qed.

(** C6. Recomputing from the same stored raw document is idempotent: once a
    recomputation for an identifier has succeeded, any number of further
    recomputations for it, whatever their outcome, leave [metrics.summary]
    exactly as it was. *)
Theorem recompute_idempotent (oid : string) (n : nat) (w w1 : World) :
  stats Quantile oid w = (w1, Returns None) →
  metrics_summary (consume Quantile (replicate n oid) w1).1 = metrics_summary w1.
Proof.
  intros Hrun. apply consume_stable.
  pose proof (stats_keeps_raw oid w) as Hraw. rewrite Hrun in Hraw. cbn in Hraw.
  apply stats_success in Hrun as (id & d & s & Hid & Hd & Hs & Hsum & _).
  exists id, d, s. rewrite Hraw, Hsum. split_and!; [done..|].
  apply upsertDoc_idempotent.
Qed.

(** The outcome of [rawToSummary] depends on the key, the bucket start time
    and the values only, not on where they live in memory. *)
Lemma rawToSummary_deterministic (raw raw' : Raw.t) (h h' : Heap) dps dps' :
  viewDatapoints h (Raw.Values raw) = Some dps →
  viewDatapoints h' (Raw.Values raw') = Some dps' →
  Raw.Key raw = Raw.Key raw' → Raw.At raw = Raw.At raw' →
  Datapoint.Value <$> dps = Datapoint.Value <$> dps' →
  (rawToSummary Quantile raw h).2 = (rawToSummary Quantile raw' h').2.
Proof.
  intros Hv Hv' Hk Ha Hvals.
  rewrite (rawToSummary_run _ _ _ _ Hv), (rawToSummary_run _ _ _ _ Hv').
  cbn [snd]. by rewrite Hk, Ha, Hvals.
Qed.

(** ** The loop of [main] *)

Lemma consume_cons (oid : string) (rest : list string) (w : World) :
  consume Quantile (oid :: rest) w =
  match failure (stats Quantile oid (record (PrintOid oid) w)).2 with
  | None => consume Quantile rest (stats Quantile oid (record (PrintOid oid) w)).1
  | Some p => ((stats Quantile oid (record (PrintOid oid) w)).1, Panics p)
  end.
Proof.
  cbn [consume].
  by destruct (stats Quantile oid (record (PrintOid oid) w)) as [w1 [[err|]|p]].
Qed.

Lemma consume_app (pre rest : list string) : ∀ w : World,
  consume Quantile (pre ++ rest) w =
  match consume Quantile pre w with
  | (w1, Returns _) => consume Quantile rest w1
  | (w1, Panics p) => (w1, Panics p)
  end.
Proof.
  induction pre as [|oid pre IH]; intros w; [done|].
  rewrite <- app_comm_cons, !consume_cons.
  destruct (failure _); [done|]. apply IH.
Qed.

Lemma consume_printed (oidch : list string) : ∀ w w' : World,
  consume Quantile oidch w = (w', Returns ()) →
  printedOids (journal w') = printedOids (journal w) ++ oidch.
Proof.
  induction oidch as [|oid rest IH]; intros w w'.
  - intros [= <-]. by rewrite app_nil_r.
  - rewrite consume_cons.
    pose proof (stats_prints_no_oid oid (record (PrintOid oid) w)) as Hp.
    destruct (failure _); [done|].
    intros Hrest. rewrite (IH _ _ Hrest), Hp.
    unfold printedOids. cbn [journal record]. rewrite bind_app. cbn.
    by rewrite <- app_assoc.
Qed.

Lemma latestOplog_printed (w w0 : World) (r : Oplog.t + error) :
  latestOplog w = (w0, r) → printedOids (journal w0) = printedOids (journal w).
Proof.
  unfold latestOplog, nextFault, printedOids.
  destruct w as [h rs ap ie ic mr ms fs j]. cbn.
  destruct fs as [|[err|] fs]; cbn; repeat case_match; intros [= <- <-]; cbn.
  all: rewrite bind_app; cbn; by rewrite app_nil_r.
Qed.

(** C8. The first error halts the pipeline and is what the process dies
    with. When [stats] fails for an identifier (the entity is not found, the
    upsert fails, or the call panics), [main] panics with that failure in
    the state that call left: the identifiers after it are never announced
    nor recomputed. When every recomputation succeeds and the tailing cursor
    ends with an error, [main] panics with the error of the cursor, after
    the identifiers delivered before the breakage and nothing else. *)
Theorem first_error_halts (w w0 : World) (lo : Oplog.t) :
  latestOplog w = (w0, inl lo) →
  (∀ pre oid post w1 w2 out p,
     oidCh (oplogCh w0 (tailQuery lo)).1 = pre ++ oid :: post →
     consume Quantile pre w0 = (w1, Returns ()) →
     stats Quantile oid (record (PrintOid oid) w1) = (w2, out) →
     failure out = Some p →
     main Quantile None w = (w2, Panics p) ∧
     printedOids (journal w2) = printedOids (journal w) ++ pre ++ [oid]) ∧
  (∀ w2 err,
     consume Quantile (oidCh (oplogCh w0 (tailQuery lo)).1) w0 = (w2, Returns ()) →
     (oplogCh w0 (tailQuery lo)).2 = Some err →
     main Quantile None w = (w2, Panics (PanicError err)) ∧
     printedOids (journal w2)
     = printedOids (journal w) ++ oidCh (oplogCh w0 (tailQuery lo)).1).
Proof.
  intros Hlo. pose proof (latestOplog_printed _ _ _ Hlo) as Hj. split.
  - intros pre oid post w1 w2 out p Hoids Hpre Hstats Hfail.
    unfold main. rewrite Hlo.
    destruct (oplogCh w0 (tailQuery lo)) as [och errCh]. cbn [fst] in Hoids.
    rewrite Hoids, consume_app, Hpre, consume_cons, Hstats. cbn [fst snd].
    rewrite Hfail. split; [done|].
    pose proof (stats_prints_no_oid oid (record (PrintOid oid) w1)) as Hp.
    rewrite Hstats in Hp. cbn [fst] in Hp. rewrite Hp.
    rewrite <- Hj, app_assoc, <- (consume_printed _ _ _ Hpre).
    unfold printedOids. cbn [journal record]. rewrite bind_app. done.
  - intros w2 err Hall Herr.
    unfold main. rewrite Hlo.
    destruct (oplogCh w0 (tailQuery lo)) as [och errCh]. cbn [fst snd] in *.
    rewrite Hall, Herr. split; [done|].
    by rewrite (consume_printed _ _ _ Hall), Hj.
Qed.

End PipelineClaims.

(** What C9 means for the pipeline: a stored raw document without
    observations makes [stats], and with it [main], panic. *)
Lemma stats_panics_on_empty_series (id : string) (w : World) (d : RawDoc.t) :
  String.length id = 12%nat →
  (∀ err, head (faults w) ≠ Some (Some err)) →
  metrics_raw w !! id = Some d →
  RawDoc.values d = [] →
  (stats QuantileInterpolated (Hex id) w).2 = Panics PanicQuantile.
Proof.
  intros Hlen Hok Hd Hnil.
  rewrite stats_run, (ObjectIdHex_Hex _ Hlen), Hd, Hnil. unfold nextFault.
  destruct w as [h rs ap ie ic mr ms fs j]. cbn in *.
  destruct fs as [|[err|] fs]; cbn; [done| |done].
  by destruct (Hok err).
Qed.

Lemma recompute_idempotent_witness :
  metrics_summary
    (consume QuantileInterpolated (replicate 3 (Hex sample_id))
       (stats QuantileInterpolated (Hex sample_id) (sample_world [] None)).1).1
  = metrics_summary
      (stats QuantileInterpolated (Hex sample_id) (sample_world [] None)).1.
Proof.
  apply (recompute_idempotent QuantileInterpolated (Hex sample_id) 3
           (sample_world [] None)).
  vm_compute. reflexivity.
Defined.

Lemma upsert_keyed_by_series_and_bucket_witness :
  let w := sample_world [] None in
  let w' := (stats QuantileInterpolated (Hex sample_id) w).1 in
  ∃ evs,
    journal w' = journal w ++ evs ∧
    (Returns (None : option error) = Returns None →
     ∃ doc, Upsert "metrics" "summary"
              (keyAt (Summary.Key doc) (Summary.At doc)) doc ∈ evs ∧
            doc ∈ metrics_summary w') ∧
    (∀ db coll sel doc,
       Upsert db coll sel doc ∈ evs →
       ∃ id d,
         ObjectIdHex (Hex sample_id) = Returns id ∧ metrics_raw w !! id = Some d ∧
         db = "metrics" ∧ coll = "summary" ∧
         sel = keyAt (RawDoc.key d) (RawDoc.at_ d) ∧ sel !! "_id" = None ∧
         Summary.Key doc = RawDoc.key d ∧ Summary.At doc = RawDoc.at_ d).
Proof.
  intros w w'.
  apply (upsert_keyed_by_series_and_bucket QuantileInterpolated (Hex sample_id)
           w w' (Returns None)).
  vm_compute. reflexivity.
Defined.

Lemma first_error_halts_witness :
  (main QuantileInterpolated None halting_world
   = (halting_after_failure, Panics (PanicError ErrNotFound)) ∧
   printedOids (journal halting_after_failure)
   = printedOids (journal halting_world) ++ [Hex sample_id] ++ [Hex missing_id]) ∧
  (main QuantileInterpolated None broken_stream_world
   = (broken_stream_drained, Panics (PanicError (ErrOther "cursor lost"))) ∧
   printedOids (journal broken_stream_drained)
   = printedOids (journal broken_stream_world) ++ [Hex sample_id]).
Proof.
  split.
  - destruct (first_error_halts QuantileInterpolated halting_world
                halting_started latest_entry) as [Hstage _];
      [vm_compute; reflexivity|].
    apply (Hstage [Hex sample_id] (Hex missing_id) [Hex sample_id]
             halting_after_first halting_after_failure
             (Returns (Some ErrNotFound)) (PanicError ErrNotFound));
      vm_compute; reflexivity.
  - destruct (first_error_halts QuantileInterpolated broken_stream_world
                broken_stream_started latest_entry) as [_ Hstream];
      [vm_compute; reflexivity|].
    apply (Hstream broken_stream_drained (ErrOther "cursor lost"));
      vm_compute; reflexivity.
Defined.

(** * Further properties of the programs *)

(** ** [rawToSummary] *)

Lemma merge_sort_Qcle_perm (l1 l2 : list float64) :
  l1 ≡ₚ l2 → merge_sort Qcle l1 = merge_sort Qcle l2.
Proof.
  intros Hp. apply (Sorted_unique Qcle); [apply Sorted_merge_sort, _..|].
  by rewrite !merge_sort_Permutation.
Qed.

Section EngineProperties.

Variable Quantile : float64 → list float64 → option float64.

(** X1. The summary does not depend on the order in which the observations
    are stored: two raw series with the same key and bucket start time
    whose values are a rearrangement of each other have the same outcome. *)
Theorem rawToSummary_order_insensitive (raw raw' : Raw.t) (h h' : Heap) dps dps' :
  viewDatapoints h (Raw.Values raw) = Some dps →
  viewDatapoints h' (Raw.Values raw') = Some dps' →
  Raw.Key raw = Raw.Key raw' → Raw.At raw = Raw.At raw' →
  Datapoint.Value <$> dps ≡ₚ Datapoint.Value <$> dps' →
  (rawToSummary Quantile raw h).2 = (rawToSummary Quantile raw' h').2.
Proof.
  intros Hv Hv' Hk Ha Hp.
  rewrite (rawToSummary_run _ _ _ _ Hv), (rawToSummary_run _ _ _ _ Hv').
  cbn [snd]. by rewrite Hk, Ha, (merge_sort_Qcle_perm _ _ Hp).
Qed.

(** X2. The quantile function is only ever given the values in increasing
    order: the call allocates one array, fills it with a rearrangement of
    the values that is sorted, and every quantile is taken of that array. *)
Theorem rawToSummary_sorts_before_quantiles (raw : Raw.t) (h : Heap) dps :
  viewDatapoints h (Raw.Values raw) = Some dps →
  ∃ sorted,
    Sorted Qcle sorted ∧ sorted ≡ₚ Datapoint.Value <$> dps ∧
    (rawToSummary Quantile raw h).1 = <[fresh (dom h) := Float64Array sorted]> h ∧
    (rawToSummary Quantile raw h).2
    = match summaryOf Quantile (Raw.Key raw) (Raw.At raw) sorted with
      | Some summary => Returns summary
      | None => Panics PanicQuantile
      end.
Proof.
  intros Hv. exists (merge_sort Qcle (Datapoint.Value <$> dps)).
  rewrite (rawToSummary_run _ _ _ _ Hv).
  split_and!; [apply Sorted_merge_sort, _ | apply merge_sort_Permutation | done..].
Qed.

Lemma summaryOf_Some_iff key at_ x :
  is_Some (summaryOf Quantile key at_ x) ↔
  Forall (λ p, is_Some (Quantile p x)) probabilities.
Proof.
  unfold summaryOf, probabilities. split.
  - intros [s H].
    repeat match type of H with
           | (?o ≫= _) = Some _ => destruct o eqn:?; simpl in H; [|done]
           end.
    repeat (apply List.Forall_cons; [eexists; eassumption|]). apply List.Forall_nil.
  - intros H.
    repeat (apply Forall_cons_1 in H as [[? ->] H]; simpl).
    by eexists.
Qed.

(** X3. For a live slice, [rawToSummary] never fails on an index: it returns
    a summary exactly when each of the nine quantile calls on the sorted
    values returns, and otherwise panics inside the quantile function. *)
Theorem rawToSummary_returns_iff (raw : Raw.t) (h : Heap) dps :
  viewDatapoints h (Raw.Values raw) = Some dps →
  ((∃ summary, (rawToSummary Quantile raw h).2 = Returns summary) ↔
   Forall (λ p, is_Some (Quantile p (merge_sort Qcle (Datapoint.Value <$> dps))))
     probabilities) ∧
  ((rawToSummary Quantile raw h).2 = Panics PanicQuantile ↔
   ¬ Forall (λ p, is_Some (Quantile p (merge_sort Qcle (Datapoint.Value <$> dps))))
       probabilities) ∧
  (rawToSummary Quantile raw h).2 ≠ Panics PanicIndexOutOfRange.
Proof.
  intros Hv. rewrite (rawToSummary_run _ _ _ _ Hv). cbn [snd].
  rewrite <- (summaryOf_Some_iff (Raw.Key raw) (Raw.At raw)).
  destruct (summaryOf _ _ _ _) as [s|]; split_and!; try done.
  all: try (split; [by eexists | by eexists]).
  all: try (split; [done | by intros []]).
  all: try (split; [by intros [? [=]] | by intros [? [=]]]).
  all: split; [by intros _ [? [=]] | done].
Qed.

End EngineProperties.

Lemma rawToSummary_order_insensitive_witness :
  (rawToSummary QuantileInterpolated sample_raw sample_heap).2
  = (rawToSummary QuantileInterpolated sample_raw shuffled_heap).2.
Proof.
  apply (rawToSummary_order_insensitive QuantileInterpolated sample_raw sample_raw
           sample_heap shuffled_heap (datapoints one_to_ten)
           (datapoints [7; 3; 10; 1; 5; 2; 9; 4; 8; 6])); try reflexivity.
  apply (bool_decide_unpack _). vm_compute. reflexivity.
Defined.

(** ** [oidCh] *)

Lemma oidSend_length (o : Oplog.t) : (length (oidSend o) ≤ 1)%nat.
Proof.
  destruct (decide (Oplog.Operation o = "i")) as [Hi|Hi].
  - rewrite (oidSend_insert _ Hi). repeat case_match; simpl; lia.
  - destruct (decide (Oplog.Operation o = "u")) as [Hu|Hu].
    + rewrite (oidSend_update _ Hu). repeat case_match; simpl; lia.
    + rewrite (oidSend_other _ Hi Hu). simpl. lia.
Qed.

(** X4. The extractor looks at inserts and updates only, and sends at most one
    identifier for each: dropping every other document from the stream
    changes nothing, and there are never more identifiers than inserts and
    updates. *)
Theorem oidCh_only_inserts_and_updates (in_ : list Oplog.t) :
  oidCh (filter (λ o, Oplog.Operation o = "i" ∨ Oplog.Operation o = "u") in_)
  = oidCh in_ ∧
  (length (oidCh in_)
   ≤ length (filter (λ o, Oplog.Operation o = "i" ∨ Oplog.Operation o = "u") in_))%nat.
Proof.
  induction in_ as [|o in_ [IH1 IH2]]; [done|].
  rewrite filter_cons. case_decide as Hop.
  - rewrite !oidCh_cons, IH1, length_app. cbn [length].
    pose proof (oidSend_length o). split; [done | lia].
  - rewrite oidCh_cons, oidSend_other by tauto. done.
Qed.

(** X5. When every document of the stream is an insert or an update carrying an
    ObjectId where the extractor looks for it, the extractor sends exactly
    one identifier per document, in the order of the stream and without
    merging repeated identifiers. *)
Theorem oidCh_one_per_document (in_ : list Oplog.t) :
  Forall (λ o, ∃ oid, identifies o oid) in_ →
  Forall2 identifies in_ (oidCh in_).
Proof.
  induction 1 as [|o in_ [oid (boid & -> & Hid)] _ IH]; [constructor|].
  rewrite oidCh_cons.
  assert (oidSend o = [Hex boid]) as ->.
  { destruct Hid as [[Hop Hid]|[Hop Hid]].
    - by rewrite (oidSend_insert _ Hop), Hid.
    - by rewrite (oidSend_update _ Hop), Hid. }
  constructor; [|done]. by exists boid.
Qed.

Lemma oidCh_one_per_document_witness :
  Forall2 identifies [insert_entry; update_entry; insert_entry]
    (oidCh [insert_entry; update_entry; insert_entry]).
Proof.
  apply (oidCh_one_per_document [insert_entry; update_entry; insert_entry]).
  repeat apply List.Forall_cons; [| |  |apply List.Forall_nil].
  - exists (Hex sample_id), sample_id. split; [reflexivity|]. left. split; reflexivity.
  - exists (Hex sample_id), sample_id. split; [reflexivity|]. right. split; reflexivity.
  - exists (Hex sample_id), sample_id. split; [reflexivity|]. left. split; reflexivity.
Defined.

Section RoundTrip.

Variable Quantile : float64 → list float64 → option float64.

(** X6. The identifier sent for a 12-byte ObjectId is read back by [stats] as
    that ObjectId: the call does not panic on the identifier and its first
    request is the lookup of [{_id: ObjectId}] in [metrics.raw]. *)
Theorem identifier_round_trip (pre post : list Oplog.t) (o : Oplog.t) (boid : string)
    (w : World) :
  String.length boid = 12%nat →
  identifies o (Hex boid) →
  Hex boid ∈ oidCh (pre ++ o :: post) ∧
  ObjectIdHex (Hex boid) = Returns boid ∧
  ∃ evs, journal (stats Quantile (Hex boid) w).1
         = journal w ++ FindOne "metrics" "raw" {[ "_id" := VObjectId boid ]} :: evs.
Proof.
  intros Hlen (boid' & Hhex & Hid).
  assert (oidSend o = [Hex boid']) as Hsend.
  { destruct Hid as [[Hop Hid]|[Hop Hid]].
    - by rewrite (oidSend_insert _ Hop), Hid.
    - by rewrite (oidSend_update _ Hop), Hid. }
  split_and!.
  - rewrite oidCh_app, oidCh_cons, Hsend, Hhex.
    apply elem_of_app. right. apply elem_of_cons. by left.
  - by apply ObjectIdHex_Hex.
  - rewrite stats_run, (ObjectIdHex_Hex _ Hlen). unfold upsertSummary, nextFault.
    destruct w as [h rs ap ie ic mr ms fs j]. cbn.
    destruct fs as [|[err|] fs]; cbn; [|by eexists|].
    all: destruct (mr !! boid) as [d|]; [|by eexists].
    all: destruct (summaryOf _ _ _ _) as [s|]; [|by eexists].
    2: destruct fs as [|[err|] fs]; cbn.
    all: cbn; eexists; rewrite <- ?app_assoc; reflexivity.
Qed.

End RoundTrip.

Lemma identifier_round_trip_witness :
  Hex sample_id ∈ oidCh ([latest_entry] ++ insert_entry :: [update_entry]) ∧
  ObjectIdHex (Hex sample_id) = Returns sample_id ∧
  ∃ evs, journal (stats QuantileInterpolated (Hex sample_id) (sample_world [] None)).1
         = journal (sample_world [] None)
           ++ FindOne "metrics" "raw" {[ "_id" := VObjectId sample_id ]} :: evs.
Proof.
  apply (identifier_round_trip QuantileInterpolated [latest_entry] [update_entry]
           insert_entry sample_id (sample_world [] None)); [reflexivity|].
  exists sample_id. split; [reflexivity|]. left. split; reflexivity.
Defined.

(** ** [stats] *)

Section StatsProperties.

Variable Quantile : float64 → list float64 → option float64.

(** X7. When no document of [metrics.raw] has the identifier, [stats] returns
    the not-found error of the lookup: it issues no upsert, prints nothing
    and leaves [metrics.summary] as it was. *)
Theorem stats_entity_not_found (oid id : string) (w : World) :
  ObjectIdHex oid = Returns id →
  (∀ err, head (faults w) ≠ Some (Some err)) →
  metrics_raw w !! id = None →
  (stats Quantile oid w).2 = Returns (Some ErrNotFound) ∧
  journal (stats Quantile oid w).1
  = journal w ++ [FindOne "metrics" "raw" {[ "_id" := VObjectId id ]}] ∧
  metrics_summary (stats Quantile oid w).1 = metrics_summary w.
Proof.
  intros Hid Hok Hraw. rewrite stats_run, Hid, Hraw. unfold nextFault.
  destruct w as [h rs ap ie ic mr ms fs j]. cbn in *.
  destruct fs as [|[err|] fs]; cbn; [done| |done].
  by destruct (Hok err).
Qed.

(** X8. When the upsert fails, [stats] returns the error of the upsert after
    printing the raw document all the same, and [metrics.summary] is left
    as it was. *)
Theorem stats_upsert_failure (oid id : string) (w : World) (d : RawDoc.t)
    (summary : Summary.t) (err : error) (fs : list (option error)) :
  ObjectIdHex oid = Returns id →
  faults w = None :: Some err :: fs →
  metrics_raw w !! id = Some d →
  summaryOf Quantile (RawDoc.key d) (RawDoc.at_ d)
    (merge_sort Qcle (Datapoint.Value <$> RawDoc.values d)) = Some summary →
  (stats Quantile oid w).2 = Returns (Some err) ∧
  journal (stats Quantile oid w).1
  = journal w ++
    [FindOne "metrics" "raw" {[ "_id" := VObjectId id ]};
     Upsert "metrics" "summary" (keyAt (RawDoc.key d) (RawDoc.at_ d)) summary;
     PrintRaw (RawDoc.key d) (RawDoc.at_ d) (RawDoc.values d)] ∧
  metrics_summary (stats Quantile oid w).1 = metrics_summary w.
Proof.
  intros Hid Hf Hraw Hs. rewrite stats_run, Hid, Hraw, Hs.
  apply summaryOf_inv in Hs as (-> & -> & _).
  unfold upsertSummary, nextFault.
  destruct w as [h rs ap ie ic mr ms fs' j]. cbn in *. subst fs'. cbn.
  by rewrite <- !app_assoc.
Qed.

Lemma latestOplog_keeps (w : World) :
  metrics_raw (latestOplog w).1 = metrics_raw w ∧
  oplog_rs (latestOplog w).1 = oplog_rs w ∧
  oplog_appended (latestOplog w).1 = oplog_appended w ∧
  iter_Err (latestOplog w).1 = iter_Err w ∧
  iter_Close (latestOplog w).1 = iter_Close w ∧
  metrics_summary (latestOplog w).1 = metrics_summary w.
Proof.
  unfold latestOplog, nextFault.
  destruct w as [h rs ap ie ic mr ms fs j]. cbn.
  destruct fs as [|[err|] fs]; cbn; by destruct (list.last rs).
Qed.

(** ** The loop of [main] *)

Lemma stats_upserted (oid : string) (w : World) :
  (stats Quantile oid w).2 = Returns None →
  length (upserted (journal (stats Quantile oid w).1))
  = S (length (upserted (journal w))).
Proof.
  destruct (stats Quantile oid w) as [w1 r] eqn:Hrun. cbn [fst snd]. intros ->.
  apply stats_success in Hrun as (id & d & s & _ & _ & _ & _ & ->).
  unfold upserted. rewrite bind_app, length_app. cbn. lia.
Qed.

(** X10. Identifiers are recomputed one by one in the order received, without
    merging repeated ones: when the loop gets through a sequence of
    identifiers, it has announced exactly that sequence and issued one
    upsert per identifier. *)
Theorem consume_one_upsert_per_identifier (oidch : list string) : ∀ w w' : World,
  consume Quantile oidch w = (w', Returns ()) →
  printedOids (journal w') = printedOids (journal w) ++ oidch ∧
  length (upserted (journal w'))
  = (length (upserted (journal w)) + length oidch)%nat.
Proof.
  induction oidch as [|oid rest IH]; intros w w'.
  - intros [= <-]. rewrite app_nil_r. split; [done | cbn; lia].
  - intros Hrun. split; [by apply (consume_printed Quantile)|].
    rewrite consume_cons in Hrun.
    pose proof (stats_upserted oid (record (PrintOid oid) w)) as Hup.
    destruct (stats Quantile oid (record (PrintOid oid) w)) as [w1 [[err|]|p]];
      cbn [fst snd failure] in *; try done.
    destruct (IH _ _ Hrun) as [_ ->]. rewrite Hup by done.
    unfold upserted. cbn [journal record]. rewrite bind_app, length_app. cbn. lia.
Qed.

End StatsProperties.

(** ** Startup and resumption *)

Lemma latestOplog_result (w : World) :
  (∀ err, head (faults w) ≠ Some (Some err)) →
  (latestOplog w).2
  = match list.last (oplog_rs w) with
    | Some lo => inl lo
    | None => inr ErrNotFound
    end ∧
  journal (latestOplog w).1 = journal w ++ [FindOne "local" "oplog.rs" ∅].
Proof.
  intros Hok. unfold latestOplog, nextFault.
  destruct w as [h rs ap ie ic mr ms fs j]. cbn in *.
  destruct fs as [|[err|] fs]; cbn; [|by destruct (Hok err)|];
    by destruct (list.last rs).
Qed.

Lemma latestOplog_inl (w w0 : World) (lo : Oplog.t) :
  latestOplog w = (w0, inl lo) →
  list.last (oplog_rs w) = Some lo ∧
  oplog_rs w0 = oplog_rs w ∧ oplog_appended w0 = oplog_appended w ∧
  iter_Err w0 = iter_Err w ∧ iter_Close w0 = iter_Close w ∧
  metrics_raw w0 = metrics_raw w ∧ metrics_summary w0 = metrics_summary w.
Proof.
  unfold latestOplog, nextFault.
  destruct w as [h rs ap ie ic mr ms fs j]. cbn.
  destruct fs as [|[err|] fs]; cbn; try done;
    destruct (list.last rs); intros [= <- <-]; done.
Qed.

Lemma sorted_last_latest (rs : list Oplog.t) (lo : Oplog.t) :
  Sorted (λ a b, Oplog.Timestamp a ≤ Oplog.Timestamp b) rs →
  list.last rs = Some lo →
  ∀ o, o ∈ rs → Oplog.Timestamp o ≤ Oplog.Timestamp lo.
Proof.
  intros Hs Hlast o Hin.
  assert (Transitive (λ a b : Oplog.t, Oplog.Timestamp a ≤ Oplog.Timestamp b))
    by (intros ???; lia).
  apply Sorted_StronglySorted in Hs; [|done].
  apply last_Some in Hlast as [init ->].
  apply elem_of_app in Hin as [Hin|Hin].
  - apply (StronglySorted_app_1_elem_of _ _ _ _ _ Hs Hin). by apply list_elem_of_singleton.
  - apply list_elem_of_singleton in Hin as ->. done.
Qed.

Lemma filter_none {A} (P : A → Prop) `{∀ x, Decision (P x)} (l : list A) :
  (∀ x, x ∈ l → ¬ P x) → filter P l = [].
Proof.
  induction l as [|x l IH]; intros Hl; [done|].
  rewrite filter_cons_False by (apply Hl; by left).
  apply IH. intros y Hy. apply Hl. by right.
Qed.

Section StartupProperties.

Variable Quantile : float64 → list float64 → option float64.

(** X11. An empty oplog is fatal at startup for both programs: each panics with
    the not-found error of the lookup of the latest entry, after that one
    request and nothing else, even if documents are appended later. *)
Theorem empty_oplog_is_fatal (w : World) :
  oplog_rs w = [] →
  (∀ err, head (faults w) ≠ Some (Some err)) →
  (main Quantile None w).2 = Panics (PanicError ErrNotFound) ∧
  (Tail.main None w).2 = Panics (PanicError ErrNotFound) ∧
  journal (main Quantile None w).1 = journal w ++ [FindOne "local" "oplog.rs" ∅] ∧
  journal (Tail.main None w).1 = journal w ++ [FindOne "local" "oplog.rs" ∅] ∧
  metrics_summary (main Quantile None w).1 = metrics_summary w.
Proof.
  intros Hrs Hok. destruct (latestOplog_result w Hok) as [Hres Hj].
  pose proof (latestOplog_keeps w) as (_ & _ & _ & _ & _ & Hsum).
  rewrite Hrs in Hres. cbn in Hres.
  unfold main, Tail.main.
  destruct (latestOplog w) as [w0 r]. cbn [fst snd] in *. by subst r.
Qed.

(** X12. With timestamps that never decrease along the oplog, the pipeline
    resumes strictly after startup: no document present when the process
    starts is delivered, and of the documents appended afterwards exactly
    the inserts and updates of [metrics.raw] with a later timestamp are. *)
Theorem pipeline_resumes_after_startup (w w0 : World) (lo : Oplog.t) :
  latestOplog w = (w0, inl lo) →
  Sorted (λ a b, Oplog.Timestamp a ≤ Oplog.Timestamp b) (oplog_rs w) →
  (oplogCh w0 (tailQuery lo)).1
  = filter (λ o, Oplog.Timestamp lo < Oplog.Timestamp o ∧
                 Oplog.Namespace o = "metrics.raw" ∧
                 (Oplog.Operation o = "i" ∨ Oplog.Operation o = "u"))
      (oplog_appended w).
Proof.
  intros Hlo Hs. apply latestOplog_inl in Hlo as (Hlast & Hrs & Hap & _).
  unfold oplogCh. cbn [fst].
  rewrite (list_filter_iff _ _ _ (matches_tailQuery lo)).
  rewrite Hrs, Hap, list.filter_app.
  rewrite filter_none; [done|].
  intros o Hin (Hlt & _).
  pose proof (sorted_last_latest _ _ Hs Hlast o Hin). lia.
Qed.

End StartupProperties.

(** ** The end of the stream *)

Section StreamEnd.

Variable Quantile : float64 → list float64 → option float64.

(** X13. When every recomputation has succeeded and the cursor stops, [main]
    panics with the error of the cursor if it has one, otherwise with the
    error of closing it if that fails, and returns normally only when there
    is neither. *)
Theorem main_after_stream_ends (w w0 w2 : World) (lo : Oplog.t) :
  latestOplog w = (w0, inl lo) →
  consume Quantile (oidCh (oplogCh w0 (tailQuery lo)).1) w0 = (w2, Returns ()) →
  main Quantile None w
  = (w2, match iter_Err w, iter_Close w with
         | Some err, _ => Panics (PanicError err)
         | None, Some err => Panics (PanicError err)
         | None, None => Returns ()
         end).
Proof.
  intros Hlo Hrun. unfold main. rewrite Hlo.
  apply latestOplog_inl in Hlo as (_ & _ & _ & He & Hc & _).
  unfold oplogCh in *. cbn [fst] in Hrun. rewrite Hrun, He, Hc.
  by destruct (iter_Err w), (iter_Close w).
Qed.

End StreamEnd.

(** ** The plain tailer *)

Lemma printing_oplogs (l : list Oplog.t) : ∀ w : World,
  journal (foldl (λ w' oplog, record (PrintOplog oplog) w') w l)
  = journal w ++ (PrintOplog <$> l) ∧
  metrics_summary (foldl (λ w' oplog, record (PrintOplog oplog) w') w l)
  = metrics_summary w ∧
  metrics_raw (foldl (λ w' oplog, record (PrintOplog oplog) w') w l) = metrics_raw w ∧
  iter_Err (foldl (λ w' oplog, record (PrintOplog oplog) w') w l) = iter_Err w ∧
  iter_Close (foldl (λ w' oplog, record (PrintOplog oplog) w') w l) = iter_Close w.
Proof.
  induction l as [|o l IH]; intros w; cbn [foldl fmap list_fmap].
  - by rewrite app_nil_r.
  - destruct (IH (record (PrintOplog o) w)) as (-> & -> & -> & -> & ->).
    cbn [journal record]. by rewrite <- app_assoc.
Qed.

Lemma printedOplogs_prints (l : list Oplog.t) : printedOplogs (PrintOplog <$> l) = l.
Proof.
  induction l as [|o l IH]; [done|]. unfold printedOplogs in *. cbn. by f_equal.
Qed.

Lemma upserted_prints (l : list Oplog.t) : upserted (PrintOplog <$> l) = [].
Proof. induction l as [|o l IH]; [done|]. unfold upserted in *. by cbn. Qed.

(** X14. With timestamps that strictly increase along the oplog, the tailer
    starts with the latest entry it looked up, which it is sent again, and
    goes on with every document appended afterwards whose timestamp is not
    smaller, whatever its namespace and operation. *)
Theorem tailer_starts_with_latest_entry (w w0 : World) (lo : Oplog.t) :
  latestOplog w = (w0, inl lo) →
  Sorted (λ a b, Oplog.Timestamp a < Oplog.Timestamp b) (oplog_rs w) →
  Tail.delivered w0 (Tail.tailQuery lo)
  = lo :: filter (λ o, Oplog.Timestamp lo ≤ Oplog.Timestamp o) (oplog_appended w).
Proof.
  intros Hlo Hs. apply latestOplog_inl in Hlo as (Hlast & Hrs & Hap & _).
  unfold Tail.delivered.
  rewrite (list_filter_iff _ _ _ (matches_Tail_tailQuery lo)).
  rewrite Hrs, Hap, list.filter_app.
  assert (Transitive (λ a b : Oplog.t, Oplog.Timestamp a < Oplog.Timestamp b))
    by (intros ???; lia).
  apply Sorted_StronglySorted in Hs; [|done].
  apply last_Some in Hlast as [init Hinit]. rewrite Hinit in Hs |- *.
  rewrite list.filter_app, filter_none.
  - rewrite filter_cons_True by lia. done.
  - intros o Hin Hle.
    pose proof (StronglySorted_app_1_elem_of _ _ _ _ lo Hs Hin) as Hlt.
    cbn in Hlt. specialize (Hlt ltac:(by apply list_elem_of_singleton)). lia.
Qed.

(** X15. The tailer prints the documents it is sent, in order, and nothing else
    of the oplog; it never upserts and leaves the metrics collections as
    they were; when the cursor stops it panics with the error of the cursor
    if there is one, otherwise with the error of closing it, and otherwise
    returns. *)
Theorem tailer_prints_what_it_is_sent (w w0 : World) (lo : Oplog.t) :
  latestOplog w = (w0, inl lo) →
  printedOplogs (journal (Tail.main None w).1)
  = printedOplogs (journal w) ++ Tail.delivered w0 (Tail.tailQuery lo) ∧
  upserted (journal (Tail.main None w).1) = upserted (journal w) ∧
  metrics_summary (Tail.main None w).1 = metrics_summary w ∧
  metrics_raw (Tail.main None w).1 = metrics_raw w ∧
  (Tail.main None w).2
  = match iter_Err w, iter_Close w with
    | Some err, _ => Panics (PanicError err)
    | None, Some err => Panics (PanicError err)
    | None, None => Returns ()
    end.
Proof.
  intros Hlo. unfold Tail.main. rewrite Hlo.
  assert (journal w0 = journal w ++ [FindOne "local" "oplog.rs" ∅]) as Hj.
  { revert Hlo. unfold latestOplog, nextFault.
    destruct w as [h rs ap ie ic mr ms fs j]. cbn.
    destruct fs as [|[err|] fs]; cbn; try done;
      destruct (list.last rs); by intros [= <- <-]. }
  apply latestOplog_inl in Hlo as (_ & _ & _ & He & Hc & Hr & Hsum).
  destruct (printing_oplogs (Tail.delivered w0 (Tail.tailQuery lo)) w0)
    as (Hj' & Hsum' & Hr' & He' & Hc').
  set (w2 := foldl _ w0 _) in *.
  assert (printedOplogs (journal w2)
          = printedOplogs (journal w) ++ Tail.delivered w0 (Tail.tailQuery lo)) as Hp.
  { rewrite Hj', Hj. unfold printedOplogs. rewrite !bind_app.
    fold (printedOplogs (PrintOplog <$> Tail.delivered w0 (Tail.tailQuery lo))).
    rewrite printedOplogs_prints. cbn. by rewrite app_nil_r. }
  assert (upserted (journal w2) = upserted (journal w)) as Hu.
  { rewrite Hj', Hj. unfold upserted. rewrite !bind_app.
    fold (upserted (PrintOplog <$> Tail.delivered w0 (Tail.tailQuery lo))).
    rewrite upserted_prints. cbn. by rewrite !app_nil_r. }
  rewrite He', He, Hc', Hc.
  destruct (iter_Err w), (iter_Close w); cbn [fst snd];
    by rewrite Hp, Hu, Hsum', Hsum, Hr', Hr.
Qed.

(** ** Recomputations that succeed *)

Lemma upsertDoc_others (doc : Summary.t) (c : list Summary.t) :
  filter (λ s, ¬ (Summary.Key s = Summary.Key doc ∧ Summary.At s = Summary.At doc))
    (upsertDoc (keyAt (Summary.Key doc) (Summary.At doc)) doc c)
  = filter (λ s, ¬ (Summary.Key s = Summary.Key doc ∧ Summary.At s = Summary.At doc)) c.
Proof.
  induction c as [|d c IH].
  - unfold upsertDoc. cbn [replaceFirst app]. by rewrite filter_cons_False by tauto.
  - rewrite upsertDoc_cons.
    destruct (matches (summaryField d) _) eqn:Hm.
    + apply matches_keyAt in Hm.
      by rewrite !filter_cons_False by tauto.
    + assert (¬ (Summary.Key d = Summary.Key doc ∧ Summary.At d = Summary.At doc)) as Hn.
      { intros Hk. apply matches_keyAt in Hk. congruence. }
      by rewrite !filter_cons_True, IH by done.
Qed.

Section SuccessProperties.

Variable Quantile : float64 → list float64 → option float64.

(** X16. A recomputation never disturbs the summaries of other series: whatever
    its outcome, the summaries whose key or bucket start time differ from
    those of the raw document it loads stay as they were, in the same
    order. *)
Theorem stats_leaves_other_series (oid id : string) (w : World) (d : RawDoc.t) :
  ObjectIdHex oid = Returns id →
  metrics_raw w !! id = Some d →
  filter (λ s, ¬ (Summary.Key s = RawDoc.key d ∧ Summary.At s = RawDoc.at_ d))
    (metrics_summary (stats Quantile oid w).1)
  = filter (λ s, ¬ (Summary.Key s = RawDoc.key d ∧ Summary.At s = RawDoc.at_ d))
      (metrics_summary w).
Proof.
  intros Hid Hd.
  destruct (stats_summary_coll Quantile oid w)
    as [->|(id' & d' & s & Hid' & Hd' & Hs & _ & ->)]; [done|].
  rewrite Hid in Hid'. injection Hid' as <-. rewrite Hd in Hd'. injection Hd' as <-.
  apply summaryOf_inv in Hs as (Hk & Ha & _). rewrite <- Hk, <- Ha.
  apply upsertDoc_others.
Qed.

Lemma stats_succeeds (oid id : string) (w : World) (d : RawDoc.t) :
  ObjectIdHex oid = Returns id →
  faults w = [] →
  metrics_raw w !! id = Some d →
  is_Some (summaryOf Quantile (RawDoc.key d) (RawDoc.at_ d)
             (merge_sort Qcle (Datapoint.Value <$> RawDoc.values d))) →
  (stats Quantile oid w).2 = Returns None ∧
  faults (stats Quantile oid w).1 = [] ∧
  metrics_raw (stats Quantile oid w).1 = metrics_raw w.
Proof.
  intros Hid Hf Hd [s Hs]. rewrite stats_run, Hid, Hd, Hs.
  unfold upsertSummary, nextFault.
  destruct w as [h rs ap ie ic mr ms fs j]. cbn in *. by subst fs.
Qed.

(** X17. With a server that answers every call and a stream of identifiers that
    each name a stored document on whose sorted values the nine quantile
    calls return, the loop of [main] gets through the whole stream: no
    recomputation fails. *)
Theorem consume_gets_through (oidch : list string) : ∀ w : World,
  faults w = [] →
  Forall (λ oid, ∃ id d,
            ObjectIdHex oid = Returns id ∧ metrics_raw w !! id = Some d ∧
            is_Some (summaryOf Quantile (RawDoc.key d) (RawDoc.at_ d)
                       (merge_sort Qcle (Datapoint.Value <$> RawDoc.values d))))
    oidch →
  (consume Quantile oidch w).2 = Returns () ∧
  printedOids (journal (consume Quantile oidch w).1) = printedOids (journal w) ++ oidch.
Proof.
  induction oidch as [|oid rest IH]; intros w Hf Hall.
  - cbn. by rewrite app_nil_r.
  - apply Forall_cons_1 in Hall as [(id & d & Hid & Hd & Hs) Hrest].
    assert ((consume Quantile (oid :: rest) w).2 = Returns ()) as Hret.
    { rewrite consume_cons.
      destruct (stats_succeeds oid id (record (PrintOid oid) w) d Hid Hf Hd Hs)
        as (-> & Hf' & Hr'). cbn [failure].
      apply IH; [done|]. by rewrite Hr'. }
    split; [done|].
    destruct (consume Quantile (oid :: rest) w) as [w' r] eqn:Hrun.
    cbn [fst snd] in *. subst r. by apply (consume_printed Quantile).
Qed.

End SuccessProperties.

(** ** Instances on the sample data *)

Lemma rawToSummary_sorts_before_quantiles_witness :
  ∃ sorted,
    Sorted Qcle sorted ∧
    sorted ≡ₚ Datapoint.Value <$> datapoints [7; 3; 10; 1; 5; 2; 9; 4; 8; 6] ∧
    (rawToSummary QuantileInterpolated sample_raw shuffled_heap).1
    = <[fresh (dom shuffled_heap) := Float64Array sorted]> shuffled_heap ∧
    (rawToSummary QuantileInterpolated sample_raw shuffled_heap).2
    = match summaryOf QuantileInterpolated (Raw.Key sample_raw) (Raw.At sample_raw)
              sorted with
      | Some summary => Returns summary
      | None => Panics PanicQuantile
      end.
Proof.
  apply (rawToSummary_sorts_before_quantiles QuantileInterpolated sample_raw
           shuffled_heap (datapoints [7; 3; 10; 1; 5; 2; 9; 4; 8; 6])).
  reflexivity.
Defined.

Lemma rawToSummary_returns_iff_witness :
  ((∃ summary,
      (rawToSummary QuantileInterpolated sample_raw sample_heap).2 = Returns summary) ↔
   Forall (λ p, is_Some (QuantileInterpolated p
                           (merge_sort Qcle (Datapoint.Value <$> datapoints one_to_ten))))
     probabilities) ∧
  ((rawToSummary QuantileInterpolated sample_raw sample_heap).2 = Panics PanicQuantile ↔
   ¬ Forall (λ p, is_Some (QuantileInterpolated p
                             (merge_sort Qcle (Datapoint.Value <$> datapoints one_to_ten))))
       probabilities) ∧
  (rawToSummary QuantileInterpolated sample_raw sample_heap).2
  ≠ Panics PanicIndexOutOfRange.
Proof.
  apply (rawToSummary_returns_iff QuantileInterpolated sample_raw sample_heap
           (datapoints one_to_ten)).
  reflexivity.
Defined.

Lemma stats_entity_not_found_witness :
  (stats QuantileInterpolated (Hex missing_id) (sample_world [] None)).2
  = Returns (Some ErrNotFound) ∧
  journal (stats QuantileInterpolated (Hex missing_id) (sample_world [] None)).1
  = journal (sample_world [] None)
    ++ [FindOne "metrics" "raw" {[ "_id" := VObjectId missing_id ]}] ∧
  metrics_summary (stats QuantileInterpolated (Hex missing_id) (sample_world [] None)).1
  = metrics_summary (sample_world [] None).
Proof.
  apply (stats_entity_not_found QuantileInterpolated (Hex missing_id) missing_id
           (sample_world [] None)); [reflexivity | discriminate | reflexivity].
Defined.

Lemma stats_upsert_failure_witness :
  (stats QuantileInterpolated (Hex sample_id) failing_upsert_world).2
  = Returns (Some (ErrOther "write refused")) ∧
  journal (stats QuantileInterpolated (Hex sample_id) failing_upsert_world).1
  = journal failing_upsert_world ++
    [FindOne "metrics" "raw" {[ "_id" := VObjectId sample_id ]};
     Upsert "metrics" "summary" (keyAt (RawDoc.key sample_doc) (RawDoc.at_ sample_doc))
       sample_summary;
     PrintRaw (RawDoc.key sample_doc) (RawDoc.at_ sample_doc) (RawDoc.values sample_doc)] ∧
  metrics_summary (stats QuantileInterpolated (Hex sample_id) failing_upsert_world).1
  = metrics_summary failing_upsert_world.
Proof.
  apply (stats_upsert_failure QuantileInterpolated (Hex sample_id) sample_id
           failing_upsert_world sample_doc sample_summary (ErrOther "write refused") []);
    [reflexivity | reflexivity | reflexivity | vm_compute; reflexivity].
Defined.

Lemma consume_one_upsert_per_identifier_witness :
  printedOids (journal twice_recomputed)
  = printedOids (journal (sample_world [] None)) ++ [Hex sample_id; Hex sample_id] ∧
  length (upserted (journal twice_recomputed))
  = (length (upserted (journal (sample_world [] None)))
     + length [Hex sample_id; Hex sample_id])%nat.
Proof.
  apply (consume_one_upsert_per_identifier QuantileInterpolated
           [Hex sample_id; Hex sample_id] (sample_world [] None) twice_recomputed).
  vm_compute. reflexivity.
Defined.

Lemma empty_oplog_is_fatal_witness :
  (main QuantileInterpolated None empty_oplog_world).2 = Panics (PanicError ErrNotFound) ∧
  (Tail.main None empty_oplog_world).2 = Panics (PanicError ErrNotFound) ∧
  journal (main QuantileInterpolated None empty_oplog_world).1
  = journal empty_oplog_world ++ [FindOne "local" "oplog.rs" ∅] ∧
  journal (Tail.main None empty_oplog_world).1
  = journal empty_oplog_world ++ [FindOne "local" "oplog.rs" ∅] ∧
  metrics_summary (main QuantileInterpolated None empty_oplog_world).1
  = metrics_summary empty_oplog_world.
Proof.
  apply (empty_oplog_is_fatal QuantileInterpolated empty_oplog_world);
    [reflexivity | discriminate].
Defined.

Lemma pipeline_resumes_after_startup_witness :
  (oplogCh busy_started (tailQuery update_entry)).1
  = filter (λ o, Oplog.Timestamp update_entry < Oplog.Timestamp o ∧
                 Oplog.Namespace o = "metrics.raw" ∧
                 (Oplog.Operation o = "i" ∨ Oplog.Operation o = "u"))
      (oplog_appended busy_world).
Proof.
  apply (pipeline_resumes_after_startup busy_world busy_started update_entry).
  - vm_compute. reflexivity.
  - repeat constructor. vm_compute. discriminate.
Defined.

Lemma main_after_stream_ends_witness :
  main QuantileInterpolated None broken_stream_world
  = (broken_stream_drained,
     match iter_Err broken_stream_world, iter_Close broken_stream_world with
     | Some err, _ => Panics (PanicError err)
     | None, Some err => Panics (PanicError err)
     | None, None => Returns ()
     end).
Proof.
  apply (main_after_stream_ends QuantileInterpolated broken_stream_world
           broken_stream_started broken_stream_drained latest_entry);
    vm_compute; reflexivity.
Defined.

Lemma tailer_starts_with_latest_entry_witness :
  Tail.delivered busy_started (Tail.tailQuery update_entry)
  = update_entry
    :: filter (λ o, Oplog.Timestamp update_entry ≤ Oplog.Timestamp o)
         (oplog_appended busy_world).
Proof.
  apply (tailer_starts_with_latest_entry busy_world busy_started update_entry).
  - vm_compute. reflexivity.
  - repeat constructor.
Defined.

Lemma tailer_prints_what_it_is_sent_witness :
  printedOplogs (journal (Tail.main None busy_world).1)
  = printedOplogs (journal busy_world)
    ++ Tail.delivered busy_started (Tail.tailQuery update_entry) ∧
  upserted (journal (Tail.main None busy_world).1) = upserted (journal busy_world) ∧
  metrics_summary (Tail.main None busy_world).1 = metrics_summary busy_world ∧
  metrics_raw (Tail.main None busy_world).1 = metrics_raw busy_world ∧
  (Tail.main None busy_world).2
  = match iter_Err busy_world, iter_Close busy_world with
    | Some err, _ => Panics (PanicError err)
    | None, Some err => Panics (PanicError err)
    | None, None => Returns ()
    end.
Proof.
  apply (tailer_prints_what_it_is_sent busy_world busy_started update_entry).
  vm_compute. reflexivity.
Defined.

Lemma stats_leaves_other_series_witness :
  filter (λ s, ¬ (Summary.Key s = RawDoc.key sample_doc ∧
                  Summary.At s = RawDoc.at_ sample_doc))
    (metrics_summary (stats QuantileInterpolated (Hex sample_id) crowded_world).1)
  = filter (λ s, ¬ (Summary.Key s = RawDoc.key sample_doc ∧
                    Summary.At s = RawDoc.at_ sample_doc))
      (metrics_summary crowded_world) ∧
  filter (λ s, ¬ (Summary.Key s = RawDoc.key sample_doc ∧
                  Summary.At s = RawDoc.at_ sample_doc))
    (metrics_summary crowded_world)
  = [flat_summary "mem" 60 3; flat_summary "cpu" 120 7] ∧
  metrics_summary (stats QuantileInterpolated (Hex sample_id) crowded_world).1
  = [flat_summary "mem" 60 3; sample_summary; flat_summary "cpu" 120 7] ∧
  sample_summary ≠ flat_summary "cpu" 60 0.
Proof.
  split_and!.
  - apply (stats_leaves_other_series QuantileInterpolated (Hex sample_id) sample_id
             crowded_world sample_doc); reflexivity.
  - vm_compute. reflexivity.
  - vm_compute. reflexivity.
  - intros E. apply (f_equal (λ s, this (Summary.Max s))) in E.
    vm_compute in E. discriminate.
Defined.

Lemma consume_gets_through_witness :
  (consume QuantileInterpolated [Hex sample_id; Hex sample_id] (sample_world [] None)).2
  = Returns () ∧
  printedOids
    (journal (consume QuantileInterpolated [Hex sample_id; Hex sample_id]
                (sample_world [] None)).1)
  = printedOids (journal (sample_world [] None)) ++ [Hex sample_id; Hex sample_id].
Proof.
  apply (consume_gets_through QuantileInterpolated [Hex sample_id; Hex sample_id]
           (sample_world [] None)); [reflexivity|].
  repeat apply List.Forall_cons; [| |apply List.Forall_nil].
  all: exists sample_id, sample_doc; split_and!; [reflexivity..|].
  all: exists sample_summary; vm_compute; reflexivity.
Defined.

(** ** The empirical quantile the program calls *)

Lemma float64_succ (c : Z) : (float64_of_Z c + 1)%Qc = float64_of_Z (c + 1).
Proof. unfold float64_of_Z. by rewrite Z2Qc_inj_add, Z2Qc_inj_1. Qed.

(** [stepFrom] returns the first value at which the running count reaches
    [fidx]. *)
Lemma stepFrom_Some (fidx : float64) (x : list float64) : ∀ (c : Z) (v : float64),
  stepFrom fidx (float64_of_Z c) x = Some v ↔
  ∃ i : nat,
    x !! i = Some v ∧
    (fidx ≤ float64_of_Z (c + Z.of_nat i + 1))%Qc ∧
    ∀ j : nat, (j < i)%nat → ¬ (fidx ≤ float64_of_Z (c + Z.of_nat j + 1))%Qc.
Proof.
  induction x as [|a rest IH]; intros c v; cbn [stepFrom].
  - split; [done|]. by intros (i & Hi & _).
  - rewrite float64_succ. destruct (decide (fidx ≤ float64_of_Z (c + 1))%Qc) as [Hle|Hnle].
    + split.
      * intros [= <-]. exists 0%nat. split_and!; [done| |lia].
        by replace (c + Z.of_nat 0 + 1) with (c + 1) by lia.
      * intros ([|i] & Hi & _ & Hmin); [by injection Hi as ->|].
        destruct (Hmin 0%nat); [lia|].
        by replace (c + Z.of_nat 0 + 1) with (c + 1) by lia.
    + rewrite IH. split.
      * intros (i & Hi & Hle & Hmin). exists (S i). split_and!; [done| |].
        -- by replace (c + Z.of_nat (S i) + 1) with (c + 1 + Z.of_nat i + 1) by lia.
        -- intros [|j] Hj.
           ++ by replace (c + Z.of_nat 0 + 1) with (c + 1) by lia.
           ++ replace (c + Z.of_nat (S j) + 1) with (c + 1 + Z.of_nat j + 1) by lia.
              apply Hmin. lia.
      * intros ([|i] & Hi & Hle & Hmin).
        -- destruct Hnle. by replace (c + 1) with (c + Z.of_nat 0 + 1) by lia.
        -- exists i. split_and!; [done| |].
           ++ by replace (c + 1 + Z.of_nat i + 1) with (c + Z.of_nat (S i) + 1) by lia.
           ++ intros j Hj.
              replace (c + 1 + Z.of_nat j + 1) with (c + Z.of_nat (S j) + 1) by lia.
              apply Hmin. lia.
Qed.

(** The rule of the empirical quantile: the value returned for [p] is the
    lowest value of the sequence whose count, [i + 1] for the value at
    index [i], reaches [p·n]; nothing is interpolated. *)
Lemma QuantileStep_rule (p : float64) (x : list float64) (v : float64) :
  QuantileStep p x = Some v ↔
  ∃ i : nat,
    x !! i = Some v ∧
    (p * float64_of_Z (Z.of_nat (length x)) ≤ float64_of_Z (Z.of_nat i + 1))%Qc ∧
    ∀ j : nat, (j < i)%nat →
      ¬ (p * float64_of_Z (Z.of_nat (length x)) ≤ float64_of_Z (Z.of_nat j + 1))%Qc.
Proof. unfold QuantileStep. rewrite stepFrom_Some. by setoid_rewrite Z.add_0_l. Qed.

Lemma stepFrom_is_Some (fidx : float64) (x : list float64) : ∀ c : Z,
  x ≠ [] →
  (fidx ≤ float64_of_Z (c + Z.of_nat (length x)))%Qc →
  is_Some (stepFrom fidx (float64_of_Z c) x).
Proof.
  induction x as [|a rest IH]; intros c Hne Hle; [done|]. cbn [stepFrom].
  rewrite float64_succ. case_decide as Hd; [by eexists|].
  apply IH.
  - intros ->. destruct Hd. by replace (c + 1) with (c + Z.of_nat (length [a])) by (cbn; lia).
  - by replace (c + 1 + Z.of_nat (length rest))
      with (c + Z.of_nat (length (a :: rest))) by (cbn [length]; lia).
Qed.

Lemma QuantileStep_total (p : float64) (x : list float64) :
  (0 ≤ p)%Qc → (p ≤ 1)%Qc → x ≠ [] → is_Some (QuantileStep p x).
Proof.
  intros _ H1 Hne. unfold QuantileStep. apply stepFrom_is_Some; [done|].
  rewrite Z.add_0_l.
  rewrite <- (Qcmult_1_l (float64_of_Z (Z.of_nat (length x)))) at 2.
  apply Qcmult_le_mono_nonneg_r; [|done].
  unfold float64_of_Z. rewrite <- Z2Qc_inj_0.
  apply (proj1 (Z2Qc_inj_le 0 (Z.of_nat (length x)))). lia.
Qed.

Lemma QuantileStep_nil (p : float64) : QuantileStep p [] = None.
Proof. done. Qed.

Lemma rawToSummary_empirical_total (raw : Raw.t) (h : Heap) dps :
  viewDatapoints h (Raw.Values raw) = Some dps → dps ≠ [] →
  ∃ summary,
    rawToSummary QuantileStep raw h
    = (<[fresh (dom h) := Float64Array (merge_sort Qcle (Datapoint.Value <$> dps))]> h,
       Returns summary) ∧
    summaryOf QuantileStep (Raw.Key raw) (Raw.At raw)
      (merge_sort Qcle (Datapoint.Value <$> dps)) = Some summary.
Proof.
  intros Hv Hne. rewrite (rawToSummary_run _ _ _ _ Hv).
  destruct (summaryOf_is_Some QuantileStep (Raw.Key raw) (Raw.At raw)
              (merge_sort Qcle (Datapoint.Value <$> dps))) as [s Hs].
  - intros p H0 H1. apply QuantileStep_total; [done..|].
    intros E. apply (f_equal length) in E.
    rewrite merge_sort_length, length_fmap in E. by destruct dps.
  - exists s. by rewrite Hs.
Qed.

(** C1 (amended). With the empirical quantile that [rawToSummary] calls,
    the summary of a series whose values are 1, 2, ..., 10 in this order
    has min = 1, max = 10 and 50th percentile = 5: the p-th percentile of
    a sorted sequence of n values is the lowest value whose count reaches
    p·n (here 0.5·10 = 5, reached at values[4] = 5), with no
    interpolation. *)
Theorem empirical_quantiles_of_one_to_ten (raw : Raw.t) (h : Heap) dps :
  viewDatapoints h (Raw.Values raw) = Some dps →
  Datapoint.Value <$> dps = float64_of_Z <$> one_to_ten →
  (∃ summary,
     (rawToSummary QuantileStep raw h).2 = Returns summary ∧
     Summary.Min summary = float64_of_Z 1 ∧
     Summary.Max summary = float64_of_Z 10 ∧
     Summary.P50 summary = float64_of_Z 5 ∧
     merge_sort Qcle (Datapoint.Value <$> dps) !! 4%nat = Some (Summary.P50 summary)) ∧
  (∀ p x v,
     QuantileStep p x = Some v ↔
     ∃ i : nat,
       x !! i = Some v ∧
       (p * float64_of_Z (Z.of_nat (length x)) ≤ float64_of_Z (Z.of_nat i + 1))%Qc ∧
       ∀ j : nat, (j < i)%nat →
         ¬ (p * float64_of_Z (Z.of_nat (length x)) ≤ float64_of_Z (Z.of_nat j + 1))%Qc).
Proof.
  intros Hv Hvals. split; [|apply QuantileStep_rule].
  destruct (rawToSummary_empirical_total raw h dps Hv) as (s & -> & Hs).
  { intros ->. discriminate Hvals. }
  exists s. split; [done|].
  rewrite Hvals in Hs |- *.
  apply summaryOf_inv in Hs as (_ & _ & Hmin & Hmax & H50).
  destruct s as [k a mn mx p2 p9 p25 p50 p75 p91 p98].
  cbn [Summary.Min Summary.Max Summary.P50] in *.
  vm_compute in Hmin, Hmax, H50.
  injection Hmin as <-. injection Hmax as <-. injection H50 as <-.
  split_and!; try by apply Qc_is_canon.
  vm_compute. reflexivity.
Qed.

Lemma empirical_quantiles_of_one_to_ten_witness :
  ∃ summary,
    (rawToSummary QuantileStep sample_raw sample_heap).2 = Returns summary ∧
    Summary.Min summary = float64_of_Z 1 ∧
    Summary.Max summary = float64_of_Z 10 ∧
    Summary.P50 summary = float64_of_Z 5 ∧
    merge_sort Qcle (Datapoint.Value <$> datapoints one_to_ten) !! 4%nat
    = Some (Summary.P50 summary).
Proof.
  apply (empirical_quantiles_of_one_to_ten sample_raw sample_heap (datapoints one_to_ten));
    reflexivity.
Defined.

(** The 50th percentile of 1, 2, ..., 10 that the program computes is 5,
    not 5.5. *)
Lemma median_of_one_to_ten_is_not_interpolated :
  ∃ summary,
    (rawToSummary QuantileStep sample_raw sample_heap).2 = Returns summary ∧
    Summary.P50 summary = float64_of_Z 5 ∧
    Summary.P50 summary ≠ lit 5.5.
Proof.
  destruct step_rule_median_of_one_to_ten as (s & Hs & _ & _ & H50).
  exists s. split_and!; [done..|]. rewrite H50. intros E.
  apply (f_equal this) in E. vm_compute in E. discriminate.
Qed.

(** The statement of C9 also holds of the empirical quantile: the summary
    is returned for a non-empty series and the first quantile call panics
    for an empty one. *)
Lemma rawToSummary_empirical_needs_an_observation (raw : Raw.t) (h : Heap) dps :
  viewDatapoints h (Raw.Values raw) = Some dps →
  (dps ≠ [] →
   ∃ summary, (rawToSummary QuantileStep raw h).2 = Returns summary) ∧
  (dps = [] →
   QuantileStep (lit 0) (merge_sort Qcle (Datapoint.Value <$> dps)) = None ∧
   (rawToSummary QuantileStep raw h).2 = Panics PanicQuantile).
Proof.
  intros Hv. split.
  - intros Hne.
    destruct (rawToSummary_empirical_total raw h dps Hv Hne) as (s & -> & _).
    by exists s.
  - intros ->. rewrite (rawToSummary_run _ _ _ _ Hv). done.
Qed.

(** ** What the pipeline asks of the server *)

Section Requests.

Variable Quantile : float64 → list float64 → option float64.




End Requests.
